(** * Memory_Simulator: the block-list memory manager

    A shallow embedding of [memory_manager.py] (class [MemoryManager]) and
    the properties of its placement, splitting, freeing and coalescing
    code.  Integers are Python integers ([Z]); the block list is a Python
    list of block dictionaries ([list block]); a method that mutates
    [self.memory] returns the new manager state next to its result.
    [process.py] (class [Process] and its counter) and the command loop of
    [main.py] are embedded on top of it; what is printed, and the
    floating-point percentages, are left out. *)

From Stdlib Require Import ZArith Lia String.
From stdpp Require Import base list gmap.
From Equations Require Import Equations.

Local Open Scope Z_scope.

(** ** Data model *)

(** The value of a block's ['status'] key: ['free'] or ['occupied']. *)
Inductive status := free | occupied.

(** A block dictionary
    [{'start': int, 'size': int, 'status': str, 'pid': int or None}]. *)
Record block := Block {
  start : Z;
  size : Z;
  blk_status : status;
  pid : option Z
}.

Definition is_free (b : block) : bool :=
  match blk_status b with free => true | occupied => false end.

Definition is_occupied (b : block) : bool := negb (is_free b).

(** [block['pid'] == process_id] for an integer [process_id]. *)
Definition pid_is (process_id : Z) (b : block) : bool :=
  match pid b with Some p => p =? process_id | None => false end.

(** [float('inf')] and the integers it is compared with. *)
Inductive fragmentation := Infinity | Finite (z : Z).

(** [z < f] for an integer [z]. *)
Definition frag_lt (z : Z) (f : fragmentation) : bool :=
  match f with Infinity => true | Finite y => z <? y end.

Module MemoryManager.

(** The attributes of a [MemoryManager] object. *)
Record t := Manager {
  total_memory_size : Z;
  memory : list block;
  current_strategy : option string
}.

Definition set_memory (self : t) (new_memory : list block) : t :=
  {| total_memory_size := total_memory_size self;
     memory := new_memory;
     current_strategy := current_strategy self |}.

(** [__init__]: [None] stands for the raised [ValueError]. *)
Definition __init__ (total_memory_size : Z) : option t :=
  if total_memory_size <=? 0 then None
  else Some {| total_memory_size := total_memory_size;
               memory := [Block 0 total_memory_size free None];
               current_strategy := None |}.

(** The loop of [_find_block_first_fit], entered at index [i] with the
    blocks from [i] on still to be enumerated. *)
Fixpoint first_fit_scan (i : nat) (rest : list block) (size_required : Z)
  : option (nat * block) :=
  match rest with
  | [] => None
  | b :: rest' =>
      if is_free b && (size_required <=? size b) then Some (i, b)
      else first_fit_scan (S i) rest' size_required
  end.

Definition _find_block_first_fit (mem : list block) (size_required : Z)
  : option (nat * block) :=
  first_fit_scan 0 mem size_required.

(** The loop of [_find_block_best_fit]: the loop variables
    [best_fit_index] and [min_fragmentation] are threaded through. *)
Fixpoint best_fit_scan (i : nat) (rest : list block) (size_required : Z)
    (best_fit_index : option nat) (min_fragmentation : fragmentation)
  : option nat * fragmentation :=
  match rest with
  | [] => (best_fit_index, min_fragmentation)
  | b :: rest' =>
      if is_free b && (size_required <=? size b) then
        let frag := size b - size_required in
        if frag_lt frag min_fragmentation
        then best_fit_scan (S i) rest' size_required (Some i) (Finite frag)
        else best_fit_scan (S i) rest' size_required
               best_fit_index min_fragmentation
      else best_fit_scan (S i) rest' size_required
             best_fit_index min_fragmentation
  end.

Definition _find_block_best_fit (mem : list block) (size_required : Z)
  : option (nat * block) :=
  match fst (best_fit_scan 0 mem size_required None Infinity) with
  | Some best_fit_index =>
      match mem !! best_fit_index with
      | Some b => Some (best_fit_index, b)
      | None => None
      end
  | None => None
  end.

(** The dictionary lookup [{...}.get(strategy)]. *)
Definition find_block_func (strategy : string)
  : option (list block → Z → option (nat * block)) :=
  if String.eqb strategy "first_fit" then Some _find_block_first_fit
  else if String.eqb strategy "best_fit" then Some _find_block_best_fit
  else None.

(** [allocate_memory]: the returned address ([None] on failure) and the
    manager afterwards. *)
Definition allocate_memory (process_id size_required : Z) (strategy : string)
    (self : t) : option Z * t :=
  if size_required <=? 0 then (None, self)
  else
    match find_block_func strategy with
    | None => (None, self)
    | Some find =>
        match find (memory self) size_required with
        | Some (block_index, b) =>
            if size b =? size_required then
              (Some (start b),
               set_memory self
                 (<[block_index :=
                      Block (start b) (size b) occupied (Some process_id)]>
                    (memory self)))
            else
              let new_occupied_block :=
                Block (start b) size_required occupied (Some process_id) in
              let new_free_block :=
                Block (start b + size_required) (size b - size_required)
                      free None in
              (Some (start new_occupied_block),
               set_memory self
                 (take block_index (memory self)
                    ++ [new_occupied_block; new_free_block]
                    ++ drop (S block_index) (memory self)))
        | None => (None, self)
        end
    end.

(** [merged_block['size'] += block['size']] on the copy [merged]. *)
Definition absorb (merged b : block) : block :=
  Block (start merged) (size merged + size b) (blk_status merged) (pid merged).

(** The inner [while] of [_coalesce_free_blocks]: [merged] absorbs the
    sizes of the free blocks that follow; what is left is the list from
    index [j] on. *)
Fixpoint merge_run (merged : block) (rest : list block) : block * list block :=
  match rest with
  | b :: rest' =>
      if is_free b
      then merge_run (absorb merged b) rest'
      else (merged, rest)
  | [] => (merged, [])
  end.

(** The outer [while] of [_coalesce_free_blocks], on the blocks from
    index [i] on; the result is what is appended to [new_memory]. *)
Equations? coalesce_scan (rest : list block) : list block
  by wf (length rest) lt :=
  coalesce_scan [] := [];
  coalesce_scan (current_block :: rest') with is_free current_block => {
    | true := fst (merge_run current_block rest')
                :: coalesce_scan (snd (merge_run current_block rest'));
    | false := current_block :: coalesce_scan rest' }.
Proof.
  all: simpl; try lia.
  clear coalesce_scan. apply Nat.lt_succ_r.
  revert current_block.
  induction rest' as [|b rest' IH]; intros merged; simpl; [lia|].
  destruct (is_free b); simpl; [|lia].
  etransitivity; [apply IH|lia].
Qed.

(** [list.sort(key=lambda block: block['start'])]: a stable sort. *)
Fixpoint sort_insert (b : block) (sorted : list block) : list block :=
  match sorted with
  | [] => [b]
  | x :: sorted' =>
      if start b <=? start x then b :: x :: sorted'
      else x :: sort_insert b sorted'
  end.

Definition sort_by_start (l : list block) : list block :=
  foldr sort_insert [] l.

Definition _coalesce_free_blocks (self : t) : t :=
  set_memory self (sort_by_start (coalesce_scan (memory self))).

(** The search loop of [deallocate_memory]. *)
Fixpoint find_owner (i : nat) (rest : list block) (process_id : Z)
  : option nat :=
  match rest with
  | [] => None
  | b :: rest' =>
      if is_occupied b && pid_is process_id b then Some i
      else find_owner (S i) rest' process_id
  end.

Definition deallocate_memory (process_id : Z) (self : t) : bool * t :=
  match find_owner 0 (memory self) process_id with
  | None => (false, self)
  | Some found_block_index =>
      match memory self !! found_block_index with
      | Some block_to_free =>
          (true,
           _coalesce_free_blocks
             (set_memory self
                (<[found_block_index :=
                     Block (start block_to_free) (size block_to_free)
                           free None]> (memory self))))
      | None => (false, self)
      end
  end.

(** [get_memory_utilization]: the integers [occupied_size] and
    [free_size], first and third component of the returned tuple.  The
    second and fourth component are floating-point percentages and are not
    part of this embedding.  The divisions by [total_memory_size] that
    compute them raise [OverflowError] when a quotient is beyond the float
    range, and then nothing is returned; where
    [0 ≤ occupied_size ≤ total_memory_size], as in every state reached
    from the constructor, both quotients lie between 0 and 1 and the
    method returns these two integers.  The properties of the two are
    stated for such states. *)
Definition occupied_size (self : t) : Z :=
  foldr Z.add 0 (size <$> List.filter is_occupied (memory self)).

Definition free_size (self : t) : Z :=
  total_memory_size self - occupied_size self.

(** The built-ins [max] and [min] on a non-empty list [x :: l] of
    integers. *)
Definition list_max (x : Z) (l : list Z) : Z := foldl Z.max x l.
Definition list_min (x : Z) (l : list Z) : Z := foldl Z.min x l.

(** [get_free_block_info]:
    [(num_free_blocks, largest_free_block, smallest_free_block)]. *)
Definition get_free_block_info (self : t) : nat * Z * Z :=
  let free_blocks := size <$> List.filter is_free (memory self) in
  let num_free_blocks := length free_blocks in
  let largest_free_block :=
    match free_blocks with x :: l => list_max x l | [] => 0 end in
  let smallest_free_block :=
    match free_blocks with x :: l => list_min x l | [] => 0 end in
  (num_free_blocks, largest_free_block, smallest_free_block).

End MemoryManager.

(** ** [process.py] *)

Module Process.

(** The attributes of a [Process] object. *)
Record t := Make {
  pid : Z;
  size_required : Z;
  allocated_address : option Z
}.

(** [Process(size_required)], given the value of the class variable
    [Process.next_pid]: the new object and the new value of
    [Process.next_pid]. *)
Definition __init__ (size_required : Z) (next_pid : Z) : t * Z :=
  ({| pid := next_pid;
      size_required := size_required;
      allocated_address := None |},
   next_pid + 1).

(** [new_process.allocated_address = allocated_address]. *)
Definition set_allocated_address (self : t) (address : Z) : t :=
  {| pid := pid self;
     size_required := size_required self;
     allocated_address := Some address |}.

End Process.

(** ** [main.py]: the command loop of [run_cli] *)

Module Main.

(** What the loop of [run_cli] works on: the local variables [manager],
    [processes] and [current_strategy], and the class variable
    [Process.next_pid]. *)
Record state := State {
  manager : MemoryManager.t;
  processes : gmap Z Process.t;
  current_strategy : string;
  next_pid : Z
}.

(** [manager.current_strategy = current_strategy]. *)
Definition set_current_strategy (m : MemoryManager.t) (strategy : string)
  : MemoryManager.t :=
  {| MemoryManager.total_memory_size := MemoryManager.total_memory_size m;
     MemoryManager.memory := MemoryManager.memory m;
     MemoryManager.current_strategy := Some strategy |}.

(** The state in which [run_cli] enters its command loop, once its two
    set-up loops have accepted a memory size and a strategy; [None] is the
    [ValueError] of the constructor.  [Process.next_pid] is 1 when the
    program starts. *)
Definition setup (total_memory : Z) (strategy : string) : option state :=
  match MemoryManager.__init__ total_memory with
  | Some m => Some {| manager := set_current_strategy m strategy;
                      processes := ∅;
                      current_strategy := strategy;
                      next_pid := 1 |}
  | None => None
  end.

Section Loop.
(** The built-ins [int] on a string ([None] for its [ValueError]) and
    [str.lower]. *)
Variable int : string → option Z.
Variable lower : string → string.

(** The branch [command == 'allocate'] for [parts] of length 2. *)
Definition allocate_command (arg : string) (st : state) : state :=
  match int arg with
  | None => st
  | Some size =>
      let (new_process, next_pid') := Process.__init__ size (next_pid st) in
      let (allocated_address, manager') :=
        MemoryManager.allocate_memory (Process.pid new_process) size
          (current_strategy st) (manager st) in
      match allocated_address with
      | Some address =>
          {| manager := manager';
             processes :=
               <[Process.pid new_process :=
                   Process.set_allocated_address new_process address]>
                 (processes st);
             current_strategy := current_strategy st;
             next_pid := next_pid' |}
      | None =>
          {| manager := manager';
             processes := processes st;
             current_strategy := current_strategy st;
             next_pid := next_pid' |}
      end
  end.

(** The branch [command == 'deallocate'] for [parts] of length 2. *)
Definition deallocate_command (arg : string) (st : state) : state :=
  match int arg with
  | None => st
  | Some pid_to_deallocate =>
      match processes st !! pid_to_deallocate with
      | Some _ =>
          let (success, manager') :=
            MemoryManager.deallocate_memory pid_to_deallocate (manager st) in
          {| manager := manager';
             processes := if success
                          then delete pid_to_deallocate (processes st)
                          else processes st;
             current_strategy := current_strategy st;
             next_pid := next_pid st |}
      | None => st
      end
  end.

(** The branch [command == 'strategy'] for [parts] of length 2. *)
Definition strategy_command (arg : string) (st : state) : state :=
  let new_strategy := lower arg in
  if bool_decide (new_strategy = "first_fit"%string)
     || bool_decide (new_strategy = "best_fit"%string)
  then {| manager := set_current_strategy (manager st) new_strategy;
          processes := processes st;
          current_strategy := new_strategy;
          next_pid := next_pid st |}
  else st.

(** One turn of the [while True] loop on [parts], the split input line,
    when the command is not [quit]; what is printed is left out. *)
Definition command_step (parts : list string) (st : state) : state :=
  match parts with
  | command :: args =>
      if String.eqb command "allocate" then
        match args with [arg] => allocate_command arg st | _ => st end
      else if String.eqb command "deallocate" then
        match args with [arg] => deallocate_command arg st | _ => st end
      else if String.eqb command "strategy" then
        match args with [arg] => strategy_command arg st | _ => st end
      else st
  | [] => st
  end.

(** The loop on a list of split input lines; it ends at [quit], or when
    the lines are used up. *)
Fixpoint command_loop (lines : list (list string)) (st : state) : state :=
  match lines with
  | [] => st
  | parts :: lines' =>
      match parts with
      | command :: _ =>
          if String.eqb command "quit" then st
          else command_loop lines' (command_step parts st)
      | [] => command_loop lines' (command_step parts st)
      end
  end.
End Loop.

End Main.

(** A call of the core interface and the run of a sequence of calls. *)
Inductive call :=
| Allocate (process_id size_required : Z) (strategy : string)
| Deallocate (process_id : Z).

Definition step (self : MemoryManager.t) (c : call) : MemoryManager.t :=
  match c with
  | Allocate process_id size_required strategy =>
      snd (MemoryManager.allocate_memory process_id size_required strategy self)
  | Deallocate process_id =>
      snd (MemoryManager.deallocate_memory process_id self)
  end.

Definition run (calls : list call) (self : MemoryManager.t) : MemoryManager.t :=
  foldl step self calls.

(** ** The properties of a block list *)

(** [p] holds of every two neighbours of the list. *)
Fixpoint adjacentb (p : block → block → bool) (l : list block) : bool :=
  match l with
  | b :: l' =>
      match l' with
      | b' :: _ => p b b' && adjacentb p l'
      | [] => true
      end
  | [] => true
  end.

(** The order that [sort(key=start)] establishes. *)
Definition sorted_by_start (l : list block) : bool :=
  adjacentb (λ b b', start b <=? start b') l.

Definition ascending_start (l : list block) : bool :=
  adjacentb (λ b b', start b <? start b') l.

Definition gapless (l : list block) : bool :=
  adjacentb (λ b b', start b + size b =? start b') l.

Definition no_adjacent_free (l : list block) : bool :=
  adjacentb (λ b b', negb (is_free b && is_free b')) l.

Definition begins_at_zero (l : list block) : bool :=
  match l with b :: _ => start b =? 0 | [] => false end.

Definition total_size (l : list block) : Z :=
  foldr (λ b acc, size b + acc) 0 l.

(** A block that [allocate_memory] may choose for [size_required]. *)
Definition candidate (size_required : Z) (b : block) : bool :=
  is_free b && (size_required <=? size b).

(** [b] is an Occupied block of owner [process_id]. *)
Definition owned_by (process_id : Z) (b : block) : bool :=
  is_occupied b && pid_is process_id b.

(** The number of Occupied blocks that carry [process_id]. *)
Definition owner_count (process_id : Z) (l : list block) : nat :=
  length (List.filter (owned_by process_id) l).

(** Every [Allocate] of the sequence is issued for an owner that holds no
    Occupied block when the call is made (the front end issues a new
    [pid] for every [allocate] command). *)
Fixpoint fresh_owners (self : MemoryManager.t) (calls : list call) : bool :=
  match calls with
  | [] => true
  | c :: calls' =>
      match c with
      | Allocate process_id _ _ =>
          bool_decide (owner_count process_id (MemoryManager.memory self) = 0%nat)
      | Deallocate _ => true
      end && fresh_owners (step self c) calls'
  end.

Import MemoryManager.

(** The blocks of [l] follow one another from address [a] on, each of
    positive size. *)
Fixpoint chain (a : Z) (l : list block) : Prop :=
  match l with
  | [] => True
  | b :: l' => start b = a ∧ 0 < size b ∧ chain (a + size b) l'
  end.

(** A Free block has [pid] [None]. *)
Definition free_unowned (b : block) : Prop := is_free b = true → pid b = None.

(** The invariant kept by every call on a constructed manager. *)
Record inv (self : t) : Prop := Inv {
  inv_nonempty : memory self ≠ [];
  inv_chain : chain 0 (memory self);
  inv_total : total_size (memory self) = total_memory_size self;
  inv_coalesced : no_adjacent_free (memory self) = true;
  inv_unowned : Forall free_unowned (memory self)
}.

(** The scan keeps the first block's [start] and status. *)
Definition same_head (l r : list block) : Prop :=
  match l, r with
  | [], [] => True
  | x :: _, y :: _ => start y = start x ∧ is_free y = is_free x
  | _, _ => False
  end.

(** The components of [get_free_block_info]'s result. *)
Definition num_free_blocks (self : t) : nat := fst (fst (get_free_block_info self)).
Definition largest_free_block (self : t) : Z := snd (fst (get_free_block_info self)).
Definition smallest_free_block (self : t) : Z := snd (get_free_block_info self).

(** Sums and counts over the Occupied and over the Free blocks. *)
Definition occupied_total (l : list block) : Z :=
  foldr Z.add 0 (size <$> List.filter is_occupied l).

Definition free_total (l : list block) : Z :=
  foldr Z.add 0 (size <$> List.filter is_free l).

Definition occupied_count (l : list block) : nat :=
  length (List.filter is_occupied l).

Definition free_count (l : list block) : nat :=
  length (List.filter is_free l).

(** The number of places where a Free block is followed by a Free
    block. *)
Fixpoint adjacent_free_pairs (l : list block) : nat :=
  match l with
  | b :: l' =>
      (match l' with
       | b' :: _ => if is_free b && is_free b' then 1 else 0
       | [] => 0
       end + adjacent_free_pairs l')%nat
  | [] => 0%nat
  end.

(** [Process(size)] called once for every size of [sizes], in order, from
    the value [next_pid] of the class variable: the objects created and
    the final value of [Process.next_pid]. *)
Fixpoint spawn (sizes : list Z) (next_pid : Z) : list Process.t * Z :=
  match sizes with
  | [] => ([], next_pid)
  | size_required :: sizes' =>
      let (new_process, next_pid') := Process.__init__ size_required next_pid in
      let (rest, last_pid) := spawn sizes' next_pid' in
      (new_process :: rest, last_pid)
  end.

(** What the command loop of [run_cli] keeps true of its state. *)
Record cli_inv (st : Main.state) : Prop := CliInv {
  cli_manager : inv (Main.manager st);
  cli_strategy :
    Main.current_strategy st = "first_fit"%string
    ∨ Main.current_strategy st = "best_fit"%string;
  cli_mirror :
    MemoryManager.current_strategy (Main.manager st)
    = Some (Main.current_strategy st);
  cli_counter : 1 ≤ Main.next_pid st;
  cli_single :
    ∀ q, (owner_count q (memory (Main.manager st)) ≤ 1)%nat;
  cli_issued :
    ∀ b, b ∈ memory (Main.manager st) → is_occupied b = true →
         ∃ q, pid b = Some q ∧ 1 ≤ q < Main.next_pid st;
  cli_table :
    ∀ q, is_Some (Main.processes st !! q)
         ↔ owner_count q (memory (Main.manager st)) = 1%nat;
  cli_records :
    ∀ q pr, Main.processes st !! q = Some pr →
            Process.pid pr = q
            ∧ ∃ a, Process.allocated_address pr = Some a
                   ∧ Block a (Process.size_required pr) occupied (Some q)
                     ∈ memory (Main.manager st)
}.

(** ** Scenarios A to E of the specification, run on the embedding *)

Example scenario_A :
  allocate_memory 1 100 "first_fit" <$> __init__ 1000
  = Some (Some 0, Manager 1000 [Block 0 100 occupied (Some 1);
                                Block 100 900 free None] None).
Proof. reflexivity. Qed.

Example scenario_B_C :
  run [Allocate 1 100 "first_fit"; Allocate 2 900 "first_fit"] <$> __init__ 1000
  = Some (Manager 1000 [Block 0 100 occupied (Some 1);
                        Block 100 900 occupied (Some 2)] None)
  ∧ run [Allocate 1 100 "first_fit"; Allocate 2 900 "first_fit"; Deallocate 1]
      <$> __init__ 1000
  = Some (Manager 1000 [Block 0 100 free None;
                        Block 100 900 occupied (Some 2)] None).
Proof. split; reflexivity. Qed.

Example scenario_D :
  run [Allocate 1 200 "first_fit"; Allocate 2 100 "first_fit";
       Deallocate 1; Deallocate 2] <$> __init__ 500
  = Some (Manager 500 [Block 0 500 free None] None)
  ∧ run [Allocate 1 200 "first_fit"; Allocate 2 100 "first_fit";
         Deallocate 2; Deallocate 1] <$> __init__ 500
  = Some (Manager 500 [Block 0 500 free None] None).
Proof. split; reflexivity. Qed.

Example scenario_E :
  allocate_memory 1 310 "first_fit" <$> __init__ 300
  = Some (None, Manager 300 [Block 0 300 free None] None).
Proof. reflexivity. Qed.

(** ** The candidate search *)

Section Search.
Variable size_required : Z.

(** What [first_fit_scan] returns: the first candidate and its index. *)
Lemma first_fit_scan_Some i rest j b :
  first_fit_scan i rest size_required = Some (j, b) →
  ∃ l1 l2, rest = l1 ++ b :: l2 ∧ j = (i + length l1)%nat
           ∧ candidate size_required b = true
           ∧ Forall (λ x, candidate size_required x = false) l1.
Proof.
  revert i. induction rest as [|x rest IH]; intros i; simpl; [done|].
  fold (candidate size_required x).
  destruct (candidate size_required x) eqn:Hx.
  - intros [= <- <-]. exists [], rest. simpl. split_and!; auto with lia.
  - intros (l1 & l2 & -> & -> & Hb & Hl1)%IH.
    exists (x :: l1), l2. simpl. split_and!; auto with lia.
Qed.

Lemma first_fit_scan_None i rest :
  first_fit_scan i rest size_required = None ↔
  Forall (λ x, candidate size_required x = false) rest.
Proof.
  revert i. induction rest as [|x rest IH]; intros i; simpl.
  - split; [constructor|done].
  - fold (candidate size_required x).
    destruct (candidate size_required x) eqn:Hx.
    + split; [done|]. intros H. inversion H; congruence.
    + rewrite IH. split; [by constructor|]. by inversion 1.
Qed.

(** The loop invariant of [best_fit_scan]: either no block of [rest]
    improved on [min_fragmentation], or the result is the leftmost
    block of [rest] of least leftover, which improved on it. *)
Lemma best_fit_scan_spec i rest best min_frag :
  let r := best_fit_scan i rest size_required best min_frag in
  (r = (best, min_frag)
   ∧ ∀ k x, rest !! k = Some x → candidate size_required x = true →
            frag_lt (size x - size_required) min_frag = false)
  ∨ (∃ k b, rest !! k = Some b ∧ r = (Some (i + k)%nat,
                                     Finite (size b - size_required))
       ∧ candidate size_required b = true
       ∧ frag_lt (size b - size_required) min_frag = true
       ∧ ∀ k' x, rest !! k' = Some x → candidate size_required x = true →
           size b - size_required ≤ size x - size_required
           ∧ ((k' < k)%nat → size b - size_required < size x - size_required)).
Proof.
  revert i best min_frag.
  induction rest as [|x rest IH]; intros i best min_frag; simpl.
  - left. split; [done|]. intros k y. by rewrite lookup_nil.
  - fold (candidate size_required x).
    destruct (candidate size_required x) eqn:Hx;
      [destruct (frag_lt (size x - size_required) min_frag) eqn:Hlt|].
    + destruct (IH (S i) (Some i) (Finite (size x - size_required)))
        as [[-> Hall]|(k & b & Hk & -> & Hb & Hbl & Hmin)].
      * right. exists 0%nat, x. rewrite Nat.add_0_r. split_and!; auto.
        intros [|k'] y Hy Hc; simpl in Hy.
        -- injection Hy as <-. lia.
        -- specialize (Hall _ _ Hy Hc). simpl in Hall.
           apply Z.ltb_ge in Hall. lia.
      * right. exists (S k), b. simpl in Hbl. apply Z.ltb_lt in Hbl.
        replace (i + S k)%nat with (S i + k)%nat by lia.
        split_and!; auto.
        -- destruct min_frag as [|m]; simpl in *; [done|].
           apply Z.ltb_lt. apply Z.ltb_lt in Hlt. lia.
        -- intros [|k'] y Hy Hc; simpl in Hy.
           ++ injection Hy as <-. lia.
           ++ destruct (Hmin _ _ Hy Hc). split; [done|]. intros ?.
              auto with lia.
    + destruct (IH (S i) best min_frag)
        as [[-> Hall]|(k & b & Hk & -> & Hb & Hbl & Hmin)].
      * left. split; [done|]. intros [|k'] y Hy Hc; simpl in Hy; eauto.
        by injection Hy as <-.
      * right. exists (S k), b.
        replace (i + S k)%nat with (S i + k)%nat by lia.
        split_and!; auto.
        intros [|k'] y Hy Hc; simpl in Hy.
        -- injection Hy as <-.
           destruct min_frag as [|m]; simpl in *; [done|].
           apply Z.ltb_lt in Hbl. apply Z.ltb_ge in Hlt. lia.
        -- destruct (Hmin _ _ Hy Hc). split; [done|]. intros ?.
           auto with lia.
    + destruct (IH (S i) best min_frag)
        as [[-> Hall]|(k & b & Hk & -> & Hb & Hbl & Hmin)].
      * left. split; [done|]. intros [|k'] y Hy Hc; simpl in Hy; eauto.
        injection Hy as <-. congruence.
      * right. exists (S k), b.
        replace (i + S k)%nat with (S i + k)%nat by lia.
        split_and!; auto.
        intros [|k'] y Hy Hc; simpl in Hy.
        -- injection Hy as <-. congruence.
        -- destruct (Hmin _ _ Hy Hc). split; [done|]. intros ?.
           auto with lia.
Qed.

(** [_find_block_best_fit] returns the leftmost candidate of least
    leftover, and nothing only when there is no candidate. *)
Lemma find_block_best_fit_Some mem i b :
  _find_block_best_fit mem size_required = Some (i, b) →
  mem !! i = Some b ∧ candidate size_required b = true
  ∧ ∀ j x, mem !! j = Some x → candidate size_required x = true →
      size b - size_required ≤ size x - size_required
      ∧ ((j < i)%nat → size b - size_required < size x - size_required).
Proof.
  unfold _find_block_best_fit.
  destruct (best_fit_scan_spec 0 mem None Infinity)
    as [[-> _]|(k & x & Hk & -> & Hx & _ & Hmin)]; simpl; [done|].
  rewrite Hk. by intros [= <- <-].
Qed.

Lemma find_block_best_fit_None mem :
  _find_block_best_fit mem size_required = None ↔
  Forall (λ x, candidate size_required x = false) mem.
Proof.
  unfold _find_block_best_fit.
  destruct (best_fit_scan_spec 0 mem None Infinity)
    as [[-> Hall]|(k & x & Hk & -> & Hx & _ & Hmin)]; simpl.
  - split; [intros _|done]. apply Forall_lookup. intros k x Hk.
    destruct (candidate size_required x) eqn:Hx; [|done].
    by specialize (Hall _ _ Hk Hx).
  - rewrite Hk. split; [done|]. intros Hall.
    rewrite Forall_lookup in Hall. specialize (Hall _ _ Hk). congruence.
Qed.
End Search.

(** ** Neighbours, chains and sums *)

Lemma adjacentb_app_cons p l1 b l2 :
  adjacentb p (l1 ++ b :: l2) = adjacentb p (l1 ++ [b]) && adjacentb p (b :: l2).
Proof.
  induction l1 as [|x l1 IH]; [done|].
  destruct l1 as [|y l1].
  - simpl. destruct l2; by rewrite ?andb_true_r.
  - change (adjacentb p ((x :: y :: l1) ++ b :: l2))
      with (p x y && adjacentb p ((y :: l1) ++ b :: l2)).
    change (adjacentb p ((x :: y :: l1) ++ [b]))
      with (p x y && adjacentb p ((y :: l1) ++ [b])).
    rewrite IH. by rewrite andb_assoc.
Qed.

Lemma adjacentb_snoc_mono p l b b' :
  (∀ x, p x b = true → p x b' = true) →
  adjacentb p (l ++ [b]) = true → adjacentb p (l ++ [b']) = true.
Proof.
  intros Hp. induction l as [|x l IH]; [done|].
  destruct l as [|y l].
  - simpl. rewrite !andb_true_r. apply Hp.
  - change (adjacentb p ((x :: y :: l) ++ [b]))
      with (p x y && adjacentb p ((y :: l) ++ [b])).
    change (adjacentb p ((x :: y :: l) ++ [b']))
      with (p x y && adjacentb p ((y :: l) ++ [b'])).
    rewrite !andb_true_iff. intros [? ?]. auto.
Qed.

Lemma adjacentb_cons_mono p b b' l :
  (∀ x, p b x = true → p b' x = true) →
  adjacentb p (b :: l) = true → adjacentb p (b' :: l) = true.
Proof.
  intros Hp. destruct l as [|x l]; [done|]. simpl.
  rewrite !andb_true_iff. intros [? ?]. auto.
Qed.

Lemma adjacentb_tail p b l :
  adjacentb p (b :: l) = true → adjacentb p l = true.
Proof. destruct l; [done|]. simpl. by intros [_ ?]%andb_true_iff. Qed.

Lemma total_size_app l1 l2 :
  total_size (l1 ++ l2) = total_size l1 + total_size l2.
Proof. induction l1 as [|x l1 IH]; simpl; [done|]. rewrite IH. lia. Qed.

Lemma chain_app a l1 l2 :
  chain a (l1 ++ l2) ↔ chain a l1 ∧ chain (a + total_size l1) l2.
Proof.
  revert a. induction l1 as [|x l1 IH]; intros a; simpl.
  - rewrite Z.add_0_r. tauto.
  - rewrite IH, Z.add_assoc. tauto.
Qed.

Lemma chain_gapless a l : chain a l → gapless l = true.
Proof.
  revert a. induction l as [|x l IH]; intros a; [done|].
  intros (Hx & Hpos & Hl). destruct l as [|y l]; [done|].
  change (gapless (x :: y :: l)) with
    ((start x + size x =? start y) && gapless (y :: l)).
  rewrite (IH _ Hl), andb_true_r. destruct Hl as [-> _]. subst a.
  apply Z.eqb_refl.
Qed.

Lemma chain_ascending a l : chain a l → ascending_start l = true.
Proof.
  revert a. induction l as [|x l IH]; intros a; [done|].
  intros (Hx & Hpos & Hl). destruct l as [|y l]; [done|].
  change (ascending_start (x :: y :: l)) with
    ((start x <? start y) && ascending_start (y :: l)).
  rewrite (IH _ Hl), andb_true_r. destruct Hl as [-> _].
  apply Z.ltb_lt. lia.
Qed.

Lemma chain_positive a l : chain a l → Forall (λ b, 0 < size b) l.
Proof.
  revert a. induction l as [|x l IH]; intros a; [constructor|].
  intros (_ & Hpos & Hl). constructor; eauto.
Qed.

Lemma ascending_sorted l : ascending_start l = true → sorted_by_start l = true.
Proof.
  induction l as [|x l IH]; [done|]. destruct l as [|y l]; [done|].
  change (ascending_start (x :: y :: l)) with
    ((start x <? start y) && ascending_start (y :: l)).
  change (sorted_by_start (x :: y :: l)) with
    ((start x <=? start y) && sorted_by_start (y :: l)).
  rewrite !andb_true_iff. intros [?%Z.ltb_lt ?]. split; [|by auto].
  apply Z.leb_le. lia.
Qed.

(** In a list sorted by [start], an earlier block starts no later. *)
Lemma sorted_by_start_lookup l i j bi bj :
  sorted_by_start l = true → (i ≤ j)%nat →
  l !! i = Some bi → l !! j = Some bj → start bi ≤ start bj.
Proof.
  revert i j bi. induction l as [|x l IH]; intros i j bi Hs Hij Hi Hj.
  - by rewrite lookup_nil in Hi.
  - assert (Hhd : ∀ k y, l !! k = Some y → start x ≤ start y).
    { clear -Hs. revert x Hs. induction l as [|z l IHl]; intros x Hs k y Hk.
      - by rewrite lookup_nil in Hk.
      - change (sorted_by_start (x :: z :: l)) with
          ((start x <=? start z) && sorted_by_start (z :: l)) in Hs.
        apply andb_true_iff in Hs as [Hxz%Z.leb_le Hs].
        destruct k as [|k]; simpl in Hk.
        + injection Hk as <-. done.
        + specialize (IHl _ Hs _ _ Hk). lia. }
    destruct i as [|i], j as [|j]; simpl in *; try lia.
    + injection Hi as <-. injection Hj as <-. lia.
    + injection Hi as <-. eauto.
    + apply (IH i j); auto with lia. by eapply adjacentb_tail.
Qed.

(** ** Allocation *)

Lemma find_block_func_cases strategy find :
  find_block_func strategy = Some find →
  (strategy = "first_fit"%string ∧ find = _find_block_first_fit)
  ∨ (strategy = "best_fit"%string ∧ find = _find_block_best_fit).
Proof.
  unfold find_block_func.
  destruct (String.eqb_spec strategy "first_fit") as [->|_];
    [intros [= <-]; by left|].
  destruct (String.eqb_spec strategy "best_fit") as [->|_];
    [intros [= <-]; by right|done].
Qed.

Lemma find_block_func_None strategy :
  find_block_func strategy = None ↔
  strategy ≠ "first_fit"%string ∧ strategy ≠ "best_fit"%string.
Proof.
  unfold find_block_func.
  destruct (String.eqb_spec strategy "first_fit") as [->|?];
    [split; [done|by intros [? _]]|].
  destruct (String.eqb_spec strategy "best_fit") as [->|?];
    [split; [done|by intros [_ ?]]|done].
Qed.

Lemma find_block_Some strategy find mem size_required i b :
  find_block_func strategy = Some find →
  find mem size_required = Some (i, b) →
  mem !! i = Some b ∧ candidate size_required b = true.
Proof.
  intros [[_ ->]|[_ ->]]%find_block_func_cases Hfind.
  - apply first_fit_scan_Some in Hfind as (l1 & l2 & -> & -> & Hb & _).
    split; [|done]. by rewrite list_lookup_middle.
  - by apply find_block_best_fit_Some in Hfind as (? & ? & _).
Qed.

Lemma find_block_None strategy find mem size_required :
  find_block_func strategy = Some find →
  find mem size_required = None ↔
  Forall (λ x, candidate size_required x = false) mem.
Proof.
  intros [[_ ->]|[_ ->]]%find_block_func_cases.
  - apply first_fit_scan_None.
  - apply find_block_best_fit_None.
Qed.

Lemma lookup_split (l : list block) i b :
  l !! i = Some b → l = take i l ++ b :: drop (S i) l ∧ length (take i l) = i.
Proof.
  intros Hi. split; [by rewrite take_drop_middle|].
  apply length_take_le. apply lookup_lt_Some in Hi. lia.
Qed.

(** The two ways in which [allocate_memory] rewrites the block list around
    the chosen block [b]: the blocks before it ([l1]) and after it ([l2])
    stay. *)
Lemma allocate_memory_Some process_id size_required strategy self A self' :
  allocate_memory process_id size_required strategy self = (Some A, self') →
  ∃ l1 b l2,
    memory self = l1 ++ b :: l2 ∧ candidate size_required b = true
    ∧ 0 < size_required ∧ A = start b
    ∧ (size b = size_required
         ∧ self' = set_memory self
             (l1 ++ Block (start b) (size b) occupied (Some process_id) :: l2)
       ∨ size_required < size b
         ∧ self' = set_memory self
             (l1 ++ Block (start b) size_required occupied (Some process_id)
                 :: Block (start b + size_required) (size b - size_required)
                          free None :: l2)).
Proof.
  unfold allocate_memory.
  destruct (Z.leb_spec size_required 0) as [|Hpos]; [done|].
  destruct (find_block_func strategy) as [find|] eqn:Hstrategy; [|done].
  destruct (find (memory self) size_required) as [[i b]|] eqn:Hfind; [|done].
  destruct (find_block_Some _ _ _ _ _ _ Hstrategy Hfind) as [Hi Hb].
  destruct (lookup_split _ _ _ Hi) as [Hmem Hlen].
  destruct (Z.eqb_spec (size b) size_required) as [Heq|Hne];
    intros [= <- <-]; exists (take i (memory self)), b, (drop (S i) (memory self));
    simpl; split_and!; auto.
  - left. split; [done|]. rewrite insert_take_drop; [done|].
    by eapply lookup_lt_Some.
  - right. split; [|done].
    apply andb_true_iff in Hb as [_ ?%Z.leb_le]. lia.
Qed.

Lemma allocate_memory_None process_id size_required strategy self self' :
  allocate_memory process_id size_required strategy self = (None, self') →
  self' = self.
Proof.
  unfold allocate_memory.
  destruct (size_required <=? 0); [by intros [= <-]|].
  destruct (find_block_func strategy) as [find|]; [|by intros [= <-]].
  destruct (find (memory self) size_required) as [[i b]|]; [|by intros [= <-]].
  by destruct (size b =? size_required).
Qed.

Lemma allocate_memory_inv process_id size_required strategy self :
  inv self → inv (snd (allocate_memory process_id size_required strategy self)).
Proof.
  intros [Hne Hch Htot Hco Hun].
  destruct (allocate_memory process_id size_required strategy self)
    as [[A|] self'] eqn:Halloc; simpl;
    [|by apply allocate_memory_None in Halloc as ->].
  apply allocate_memory_Some in Halloc
    as (l1 & b & l2 & Hmem & Hb & Hpos & _ & Hcase).
  apply andb_true_iff in Hb as [Hfree Hfit%Z.leb_le].
  rewrite Hmem in *. clear Hmem.
  apply chain_app in Hch as [Hch1 (Hst & Hsz & Hch2)].
  unfold no_adjacent_free in Hco. rewrite adjacentb_app_cons in Hco.
  apply andb_true_iff in Hco as [Hco1 Hco2].
  apply Forall_app in Hun as [Hun1 Hun2]. inversion_clear Hun2 as [|?? _ Hun2'].
  rewrite total_size_app in Htot. simpl in Htot.
  destruct Hcase as [[Hsize ->]|[Hsize ->]]; split; simpl.
  - by destruct l1.
  - apply chain_app. simpl. auto.
  - rewrite total_size_app. simpl. lia.
  - unfold no_adjacent_free. rewrite adjacentb_app_cons. apply andb_true_iff.
    split.
    + revert Hco1. apply adjacentb_snoc_mono. intros x _.
      by rewrite andb_false_r.
    + revert Hco2. by apply adjacentb_cons_mono.
  - apply Forall_app. split; [done|]. by constructor.
  - by destruct l1.
  - apply chain_app. simpl. split_and!; auto with lia.
    by replace (0 + total_size l1 + size_required + (size b - size_required))
      with (0 + total_size l1 + size b) by lia.
  - rewrite total_size_app. simpl. lia.
  - unfold no_adjacent_free.
    rewrite adjacentb_app_cons. apply andb_true_iff. split.
    + revert Hco1. apply adjacentb_snoc_mono. intros x _.
      by rewrite andb_false_r.
    + change (adjacentb ?p (?x :: ?y :: l2))
        with (p x y && adjacentb p (y :: l2)).
      apply andb_true_iff. split; [done|].
      revert Hco2. apply adjacentb_cons_mono. intros x. simpl.
      by rewrite Hfree.
  - apply Forall_app. split; [done|]. by repeat constructor.
Qed.

(** ** The coalescing scan *)

Lemma coalesce_scan_occupied b l :
  is_free b = false → coalesce_scan (b :: l) = b :: coalesce_scan l.
Proof. intros Hb. simp coalesce_scan. by rewrite Hb. Qed.

Lemma coalesce_scan_free b l :
  is_free b = true →
  coalesce_scan (b :: l)
  = fst (merge_run b l) :: coalesce_scan (snd (merge_run b l)).
Proof. intros Hb. simp coalesce_scan. by rewrite Hb. Qed.

Lemma coalesce_scan_free_free b b' l :
  is_free b = true → is_free b' = true →
  coalesce_scan (b :: b' :: l) = coalesce_scan (absorb b b' :: l).
Proof.
  intros Hb Hb'. rewrite !coalesce_scan_free; [|done..].
  simpl. by rewrite Hb'.
Qed.

Lemma coalesce_scan_free_occupied b b' l :
  is_free b = true → is_free b' = false →
  coalesce_scan (b :: b' :: l) = b :: b' :: coalesce_scan l.
Proof.
  intros Hb Hb'. rewrite coalesce_scan_free; [|done]. simpl. rewrite Hb'.
  simpl. by rewrite coalesce_scan_occupied.
Qed.

Lemma coalesce_scan_free_last b :
  is_free b = true → coalesce_scan [b] = [b].
Proof. intros Hb. by rewrite coalesce_scan_free. Qed.

(** Induction along the scan: a free block is copied when it is the last
    one or an occupied block follows, and absorbs its right neighbour when
    that one is free. *)
Lemma coalesce_scan_ind (P : list block → list block → Prop) :
  P [] [] →
  (∀ b l, is_free b = false → P l (coalesce_scan l) →
          P (b :: l) (b :: coalesce_scan l)) →
  (∀ b, is_free b = true → P [b] [b]) →
  (∀ b b' l, is_free b = true → is_free b' = false →
             P l (coalesce_scan l) →
             P (b :: b' :: l) (b :: b' :: coalesce_scan l)) →
  (∀ b b' l, is_free b = true → is_free b' = true →
             P (absorb b b' :: l) (coalesce_scan (absorb b b' :: l)) →
             P (b :: b' :: l) (coalesce_scan (absorb b b' :: l))) →
  ∀ l, P l (coalesce_scan l).
Proof.
  intros Hnil Hocc Hlast Hstop Hmerge l.
  remember (length l) as n eqn:Hn. revert l Hn.
  induction n as [n IH] using lt_wf_ind. intros [|b l] Hn.
  - by simp coalesce_scan.
  - simpl in Hn. destruct (is_free b) eqn:Hb.
    + destruct l as [|b' l].
      * rewrite coalesce_scan_free_last; auto.
      * destruct (is_free b') eqn:Hb'.
        -- rewrite coalesce_scan_free_free; [|done..].
           apply Hmerge; [done..|]. apply (IH (S (length l))); simpl in *; lia.
        -- rewrite coalesce_scan_free_occupied; [|done..].
           apply Hstop; [done..|]. apply (IH (length l)); simpl in *; lia.
    + rewrite coalesce_scan_occupied; [|done].
      apply Hocc; [done|]. apply (IH (length l)); lia.
Qed.

Lemma coalesce_scan_head l : same_head l (coalesce_scan l).
Proof.
  apply (coalesce_scan_ind same_head); simpl; auto.
Qed.

Lemma coalesce_scan_nonempty l : l ≠ [] → coalesce_scan l ≠ [].
Proof.
  pose proof (coalesce_scan_head l) as H.
  by destruct (coalesce_scan l), l.
Qed.

Lemma coalesce_scan_chain a l : chain a l → chain a (coalesce_scan l).
Proof.
  revert a. apply (coalesce_scan_ind (λ l r, ∀ a, chain a l → chain a r));
    simpl; auto.
  - intros b m _ IH a (? & ? & ?). auto.
  - intros b b' m _ _ IH a (? & ? & ? & ? & ?). split_and!; auto.
  - intros b b' m _ _ IH a (? & ? & ? & ? & Hl). apply IH. simpl.
    split_and!; auto with lia. by rewrite Z.add_assoc.
Qed.

Lemma coalesce_scan_total_size l :
  total_size (coalesce_scan l) = total_size l.
Proof.
  apply (coalesce_scan_ind (λ l r, total_size r = total_size l)); simpl; auto.
  - intros b m _ ->. done.
  - intros b b' m _ _ ->. done.
  - intros b b' m _ _ ->. lia.
Qed.

Lemma coalesce_scan_unowned l :
  Forall free_unowned l → Forall free_unowned (coalesce_scan l).
Proof.
  apply (coalesce_scan_ind
           (λ l r, Forall free_unowned l → Forall free_unowned r)); auto.
  - intros b m _ IH Hl. inversion_clear Hl. constructor; auto.
  - intros b b' m _ _ IH Hl. inversion_clear Hl as [|?? ? Hl'].
    inversion_clear Hl'. repeat constructor; auto.
  - intros b b' m _ _ IH Hl. inversion_clear Hl as [|?? Hb Hl'].
    inversion_clear Hl'. apply IH. constructor; auto.
Qed.

Lemma coalesce_scan_owner_count process_id l :
  owner_count process_id (coalesce_scan l) = owner_count process_id l.
Proof.
  apply (coalesce_scan_ind
           (λ l r, owner_count process_id r = owner_count process_id l));
    unfold owner_count, owned_by, is_occupied; simpl; auto.
  - intros b m _ IH. destruct (_ && _); simpl; auto.
  - intros b b' m Hb Hb' IH. rewrite Hb, Hb'. simpl.
    destruct (pid_is process_id b'); simpl; auto.
  - intros b b' m Hb Hb' ->. unfold is_free in *. simpl. by rewrite Hb, Hb'.
Qed.

(** After the scan no two neighbours are both free. *)
Lemma coalesce_scan_coalesced l : no_adjacent_free (coalesce_scan l) = true.
Proof.
  apply (coalesce_scan_ind (λ _ r, no_adjacent_free r = true));
    unfold no_adjacent_free; auto.
  - intros b m Hb IH. destruct (coalesce_scan m); [done|].
    simpl in *. by rewrite Hb, IH.
  - intros b b' m Hb Hb' IH. destruct (coalesce_scan m); simpl in *.
    + by rewrite Hb', andb_false_r.
    + by rewrite Hb', IH, andb_false_r.
Qed.

(** The scan changes nothing where no two neighbours are both free. *)
Lemma coalesce_scan_fixed l :
  no_adjacent_free l = true → coalesce_scan l = l.
Proof.
  apply (coalesce_scan_ind (λ l r, no_adjacent_free l = true → r = l)); auto.
  - intros b m _ IH Hl. f_equal. apply IH. by eapply adjacentb_tail.
  - intros b b' m _ _ IH Hl. do 2 f_equal. apply IH.
    by do 2 eapply adjacentb_tail.
  - intros b b' m Hb Hb' _. unfold no_adjacent_free. simpl.
    by rewrite Hb, Hb'.
Qed.

Lemma sorted_by_start_cons_head b l r :
  same_head l r → sorted_by_start (b :: l) = true →
  sorted_by_start r = true → sorted_by_start (b :: r) = true.
Proof.
  destruct l as [|x l], r as [|y r]; simpl; try done.
  intros [Hst _]. unfold sorted_by_start. simpl.
  intros [? _]%andb_true_iff Hr.
  change (adjacentb ?p (y :: r)) with (sorted_by_start (y :: r)).
  rewrite Hr, Hst. by apply andb_true_iff.
Qed.

Lemma coalesce_scan_sorted l :
  sorted_by_start l = true → sorted_by_start (coalesce_scan l) = true.
Proof.
  apply (coalesce_scan_ind
           (λ l r, sorted_by_start l = true → sorted_by_start r = true)); auto.
  - intros b m _ IH Hl.
    apply (sorted_by_start_cons_head b m); auto using coalesce_scan_head.
    apply IH. by eapply adjacentb_tail.
  - intros b b' m _ Hb' IH Hl.
    apply (sorted_by_start_cons_head b (b' :: m)); [done..|].
    apply (sorted_by_start_cons_head b' m); auto using coalesce_scan_head.
    + by eapply adjacentb_tail.
    + apply IH. by do 2 eapply adjacentb_tail.
  - intros b b' m _ _ IH Hl. apply IH. revert Hl.
    unfold sorted_by_start. destruct m as [|x m]; [done|]. simpl.
    rewrite !andb_true_iff. intros (?%Z.leb_le & ?%Z.leb_le & ?).
    split; [|done]. apply Z.leb_le. lia.
Qed.

(** ** The re-sort *)

Lemma sort_by_start_sorted l :
  sorted_by_start l = true → sort_by_start l = l.
Proof.
  induction l as [|x l IH]; [done|]. intros Hl. simpl.
  rewrite IH by (by eapply adjacentb_tail).
  destruct l as [|y l]; [done|]. simpl.
  unfold sorted_by_start in Hl. simpl in Hl.
  apply andb_true_iff in Hl as [-> _]. done.
Qed.

Lemma sort_insert_owner_count process_id b l :
  owner_count process_id (sort_insert b l) = owner_count process_id (b :: l).
Proof.
  unfold owner_count. induction l as [|x l IH]; [done|]. simpl.
  destruct (start b <=? start x); [done|]. simpl in *.
  destruct (owned_by process_id x), (owned_by process_id b); simpl in *; lia.
Qed.

Lemma sort_by_start_owner_count process_id l :
  owner_count process_id (sort_by_start l) = owner_count process_id l.
Proof.
  induction l as [|x l IH]; [done|]. simpl.
  rewrite sort_insert_owner_count. unfold owner_count in *. simpl.
  destruct (owned_by process_id x); simpl; lia.
Qed.

(** ** Deallocation *)

Lemma find_owner_Some process_id i rest j :
  find_owner i rest process_id = Some j →
  ∃ l1 b l2, rest = l1 ++ b :: l2 ∧ j = (i + length l1)%nat
             ∧ owned_by process_id b = true
             ∧ Forall (λ x, owned_by process_id x = false) l1.
Proof.
  revert i. induction rest as [|x rest IH]; intros i; simpl; [done|].
  fold (owned_by process_id x).
  destruct (owned_by process_id x) eqn:Hx.
  - intros [= <-]. exists [], x, rest. simpl. split_and!; auto with lia.
  - intros (l1 & b & l2 & -> & -> & Hb & Hl1)%IH.
    exists (x :: l1), b, l2. simpl. split_and!; auto with lia.
Qed.

Lemma find_owner_None process_id i rest :
  find_owner i rest process_id = None ↔
  Forall (λ x, owned_by process_id x = false) rest.
Proof.
  revert i. induction rest as [|x rest IH]; intros i; simpl.
  - split; [constructor|done].
  - fold (owned_by process_id x).
    destruct (owned_by process_id x) eqn:Hx.
    + split; [done|]. intros H. inversion H; congruence.
    + rewrite IH. split; [by constructor|]. by inversion 1.
Qed.

(** A successful [deallocate_memory] frees the first block of the owner
    and coalesces. *)
Lemma deallocate_memory_true process_id self self' :
  deallocate_memory process_id self = (true, self') →
  ∃ l1 b l2,
    memory self = l1 ++ b :: l2 ∧ owned_by process_id b = true
    ∧ Forall (λ x, owned_by process_id x = false) l1
    ∧ self' = _coalesce_free_blocks
                (set_memory self
                   (l1 ++ Block (start b) (size b) free None :: l2)).
Proof.
  unfold deallocate_memory.
  destruct (find_owner 0 (memory self) process_id) as [i|] eqn:Hfind; [|done].
  apply find_owner_Some in Hfind as (l1 & b & l2 & Hmem & -> & Hb & Hl1).
  rewrite Hmem. simpl. rewrite list_lookup_middle by done.
  intros [= <-]. exists l1, b, l2. split_and!; auto.
  rewrite insert_app_r_alt by lia. by rewrite Nat.sub_diag.
Qed.

Lemma deallocate_memory_false process_id self self' :
  deallocate_memory process_id self = (false, self') →
  self' = self ∧ Forall (λ x, owned_by process_id x = false) (memory self).
Proof.
  unfold deallocate_memory.
  destruct (find_owner 0 (memory self) process_id) as [i|] eqn:Hfind.
  - apply find_owner_Some in Hfind as (l1 & b & l2 & Hmem & -> & Hb & Hl1).
    rewrite Hmem. simpl. by rewrite list_lookup_middle.
  - intros [= <-]. split; [done|]. by eapply find_owner_None.
Qed.

Lemma coalesce_free_blocks_sorted self :
  sorted_by_start (memory self) = true →
  memory (_coalesce_free_blocks self) = coalesce_scan (memory self).
Proof.
  intros Hs. simpl. apply sort_by_start_sorted. by apply coalesce_scan_sorted.
Qed.

Lemma deallocate_memory_inv process_id self :
  inv self → inv (snd (deallocate_memory process_id self)).
Proof.
  intros [Hne Hch Htot Hco Hun].
  destruct (deallocate_memory process_id self) as [[|] self'] eqn:Hde; simpl;
    [|by apply deallocate_memory_false in Hde as [-> _]].
  apply deallocate_memory_true in Hde as (l1 & b & l2 & Hmem & Hb & _ & ->).
  rewrite Hmem in *. clear Hmem.
  set (freed := l1 ++ Block (start b) (size b) free None :: l2).
  assert (Hch' : chain 0 freed).
  { apply chain_app in Hch as [? (? & ? & ?)]. apply chain_app. simpl. auto. }
  assert (Hmem' : memory (_coalesce_free_blocks (set_memory self freed))
                  = coalesce_scan freed).
  { apply coalesce_free_blocks_sorted. simpl.
    by eapply ascending_sorted, chain_ascending. }
  split; rewrite Hmem'.
  - apply coalesce_scan_nonempty. unfold freed. by destruct l1.
  - by apply coalesce_scan_chain.
  - rewrite coalesce_scan_total_size. simpl. rewrite <- Htot.
    unfold freed. by rewrite !total_size_app.
  - apply coalesce_scan_coalesced.
  - apply coalesce_scan_unowned. apply Forall_app in Hun as [? Hun].
    inversion_clear Hun. apply Forall_app. split; [done|]. by constructor.
Qed.

(** ** Sequences of calls *)

Lemma init_inv total self : __init__ total = Some self → inv self.
Proof.
  unfold __init__. destruct (Z.leb_spec total 0); [done|].
  intros [= <-]. split; simpl; auto with lia.
  by repeat constructor.
Qed.

Lemma step_inv self c : inv self → inv (step self c).
Proof.
  destruct c; simpl; auto using allocate_memory_inv, deallocate_memory_inv.
Qed.

Lemma run_inv calls self : inv self → inv (run calls self).
Proof.
  revert self. induction calls as [|c calls IH]; intros self; [done|].
  change (run (c :: calls) self) with (run calls (step self c)).
  auto using step_inv.
Qed.

Lemma step_total_memory_size self c :
  total_memory_size (step self c) = total_memory_size self.
Proof.
  destruct c as [process_id size_required strategy|process_id]; simpl.
  - destruct (allocate_memory process_id size_required strategy self)
      as [[A|] self'] eqn:Halloc; simpl.
    + by apply allocate_memory_Some in Halloc
        as (? & ? & ? & _ & _ & _ & _ & [[_ ->]|[_ ->]]).
    + by apply allocate_memory_None in Halloc as ->.
  - destruct (deallocate_memory process_id self) as [[|] self'] eqn:Hde; simpl.
    + by apply deallocate_memory_true in Hde as (? & ? & ? & _ & _ & _ & ->).
    + by apply deallocate_memory_false in Hde as [-> _].
Qed.

Lemma run_total_memory_size calls self :
  total_memory_size (run calls self) = total_memory_size self.
Proof.
  revert self. induction calls as [|c calls IH]; intros self; [done|].
  change (run (c :: calls) self) with (run calls (step self c)).
  by rewrite IH, step_total_memory_size.
Qed.

(** ** The specified properties *)

Lemma no_candidate_iff size_required (mem : list block) :
  Forall (λ x, candidate size_required x = false) mem ↔
  ¬ ∃ b, b ∈ mem ∧ is_free b = true ∧ size_required ≤ size b.
Proof.
  rewrite Forall_forall. unfold candidate. split.
  - intros Hall (b & Hb & Hfree & Hfit). specialize (Hall _ Hb).
    rewrite Hfree in Hall. simpl in Hall. apply Z.leb_gt in Hall. lia.
  - intros Hno b Hb. destruct (is_free b) eqn:Hfree; [|done]. simpl.
    apply Z.leb_gt. destruct (Z.lt_ge_cases (size b) size_required); [done|].
    destruct Hno. eauto.
Qed.

Lemma allocate_memory_fails process_id size_required strategy self :
  fst (allocate_memory process_id size_required strategy self) = None ↔
  size_required ≤ 0
  ∨ (strategy ≠ "first_fit"%string ∧ strategy ≠ "best_fit"%string)
  ∨ Forall (λ x, candidate size_required x = false) (memory self).
Proof.
  unfold allocate_memory.
  destruct (Z.leb_spec size_required 0) as [|Hpos]; [simpl; tauto|].
  destruct (find_block_func strategy) as [find|] eqn:Hstrategy.
  - pose proof (find_block_None _ _ (memory self) size_required Hstrategy)
      as Hnone.
    assert (find_block_func strategy ≠ None) as Hvalid by congruence.
    rewrite find_block_func_None in Hvalid.
    destruct (find (memory self) size_required) as [[i b]|].
    + assert (¬ Forall (λ x, candidate size_required x = false) (memory self))
        by (by intros ?%Hnone).
      destruct (size b =? size_required); simpl; split; try done;
        intros [?|[?|?]]; try done; lia.
    + simpl. split; [intros _|done]. right. right. by apply Hnone.
  - apply find_block_func_None in Hstrategy. simpl. tauto.
Qed.

(** C1. From a manager constructed with a positive [total_memory_size],
    every finite sequence of [allocate_memory] and [deallocate_memory]
    calls, whatever their arguments, leaves a block list that is sorted by
    ascending [start], gapless (each block's [start + size] is the next
    block's [start]), begins at [start] 0, has sizes that sum to
    [total_memory_size], and has no two adjacent Free blocks; every block
    has a positive size, so that the blocks do not overlap. *)
Theorem block_list_invariant_preserved (total : Z) :
  0 < total →
  ∃ self, __init__ total = Some self ∧
    ∀ calls : list call,
      let mem := memory (run calls self) in
      ascending_start mem = true
      ∧ gapless mem = true
      ∧ begins_at_zero mem = true
      ∧ total_size mem = total
      ∧ total_memory_size (run calls self) = total
      ∧ no_adjacent_free mem = true
      ∧ Forall (λ b, 0 < size b) mem.
Proof.
  intros Hpos.
  assert (∃ self, __init__ total = Some self) as [self Hinit].
  { unfold __init__. destruct (Z.leb_spec total 0); [lia|eauto]. }
  exists self. split; [done|]. intros calls mem.
  assert (total_memory_size self = total) as Htotal.
  { revert Hinit. unfold __init__. destruct (total <=? 0); [done|].
    by intros [= <-]. }
  destruct (run_inv calls self (init_inv _ _ Hinit)) as [Hne Hch Htot Hco _].
  rewrite run_total_memory_size, Htotal in Htot. subst mem.
  rewrite run_total_memory_size.
  split_and!; eauto using chain_ascending, chain_gapless, chain_positive.
  destruct (memory (run calls self)) as [|b ?]; [done|].
  destruct Hch as [Hb _]. simpl. by rewrite Hb.
Qed.

Lemma block_list_invariant_preserved_witness :
  ∃ self, __init__ 1000 = Some self ∧
    ∀ calls : list call,
      let mem := memory (run calls self) in
      ascending_start mem = true
      ∧ gapless mem = true
      ∧ begins_at_zero mem = true
      ∧ total_size mem = 1000
      ∧ total_memory_size (run calls self) = 1000
      ∧ no_adjacent_free mem = true
      ∧ Forall (λ b, 0 < size b) mem.
Proof. apply (block_list_invariant_preserved 1000). lia. Defined.

(** C5. [allocate_memory] returns no address if and only if
    [size_required] is not positive, or the strategy is neither
    [first_fit] nor [best_fit], or no Free block of size at least
    [size_required] exists; and whenever it returns no address the manager
    (its block list included) is exactly as before the call. *)
Theorem allocate_memory_failure process_id size_required strategy self :
  (fst (allocate_memory process_id size_required strategy self) = None ↔
     size_required ≤ 0
     ∨ (strategy ≠ "first_fit"%string ∧ strategy ≠ "best_fit"%string)
     ∨ ¬ ∃ b, b ∈ memory self ∧ is_free b = true ∧ size_required ≤ size b)
  ∧ (fst (allocate_memory process_id size_required strategy self) = None →
     snd (allocate_memory process_id size_required strategy self) = self).
Proof.
  split.
  - by rewrite allocate_memory_fails, no_candidate_iff.
  - destruct (allocate_memory process_id size_required strategy self)
      as [[A|] self'] eqn:Halloc; simpl; [done|]. intros _.
    by eapply allocate_memory_None.
Qed.

Lemma allocate_memory_failure_witness :
  snd (allocate_memory 1 310 "first_fit" (Manager 300 [Block 0 300 free None] None))
  = Manager 300 [Block 0 300 free None] None.
Proof.
  apply (allocate_memory_failure 1 310 "first_fit"
           (Manager 300 [Block 0 300 free None] None)).
  reflexivity.
Defined.

(** C10. On the same state and for the same positive [size_required],
    [allocate_memory] succeeds with [first_fit] if and only if it succeeds
    with [best_fit]: each succeeds exactly when some Free block has size
    at least [size_required]. *)
Theorem out_of_memory_independent_of_strategy
    process_id size_required self :
  0 < size_required →
  let succeeds strategy :=
    is_Some (fst (allocate_memory process_id size_required strategy self)) in
  (succeeds "first_fit"%string ↔ succeeds "best_fit"%string)
  ∧ (succeeds "first_fit"%string ↔
       ∃ b, b ∈ memory self ∧ is_free b = true ∧ size_required ≤ size b)
  ∧ (succeeds "best_fit"%string ↔
       ∃ b, b ∈ memory self ∧ is_free b = true ∧ size_required ≤ size b).
Proof.
  intros Hpos succeeds.
  assert (∀ strategy,
    strategy = "first_fit"%string ∨ strategy = "best_fit"%string →
    succeeds strategy ↔
      ∃ b, b ∈ memory self ∧ is_free b = true ∧ size_required ≤ size b)
    as Hiff.
  { intros strategy Hstrategy. unfold succeeds.
    rewrite <- not_eq_None_Some, allocate_memory_fails, no_candidate_iff.
    split.
    - intros Hs. destruct (decide (Exists (λ b, candidate size_required b = true)
                                     (memory self))) as [Hex|Hno].
      + apply Exists_exists in Hex as (b & ? & [? ?%Z.leb_le]%andb_true_iff).
        eauto.
      + destruct Hs. right. right. intros (b & Hb & Hfree & Hfit).
        destruct Hno. apply Exists_exists. exists b. split; [done|].
        unfold candidate. rewrite Hfree. simpl. by apply Z.leb_le.
    - intros Hex [?|[[? ?]|Hno]]; [lia| |done].
      destruct Hstrategy; congruence. }
  rewrite !Hiff by auto. tauto.
Qed.

Lemma out_of_memory_independent_of_strategy_witness :
  let self := Manager 300 [Block 0 300 free None] None in
  let succeeds strategy :=
    is_Some (fst (allocate_memory 1 100 strategy self)) in
  (succeeds "first_fit"%string ↔ succeeds "best_fit"%string)
  ∧ (succeeds "first_fit"%string ↔
       ∃ b, b ∈ memory self ∧ is_free b = true ∧ 100 ≤ size b)
  ∧ (succeeds "best_fit"%string ↔
       ∃ b, b ∈ memory self ∧ is_free b = true ∧ 100 ≤ size b).
Proof.
  apply (out_of_memory_independent_of_strategy 1 100
           (Manager 300 [Block 0 300 free None] None)).
  lia.
Defined.

(** Whichever block the search returns, a successful [allocate_memory]
    returns its [start] and leaves an Occupied block of the requested size
    and owner at its index. *)
Lemma allocate_memory_selects process_id size_required strategy find self A self' :
  find_block_func strategy = Some find →
  allocate_memory process_id size_required strategy self = (Some A, self') →
  ∃ i b, find (memory self) size_required = Some (i, b)
         ∧ memory self !! i = Some b ∧ A = start b
         ∧ memory self' !! i
           = Some (Block (start b) size_required occupied (Some process_id)).
Proof.
  intros Hstrategy. unfold allocate_memory.
  destruct (size_required <=? 0); [done|]. rewrite Hstrategy.
  destruct (find (memory self) size_required) as [[i b]|] eqn:Hfind; [|done].
  destruct (find_block_Some _ _ _ _ _ _ Hstrategy Hfind) as [Hi _].
  pose proof (lookup_lt_Some _ _ _ Hi) as Hlt.
  destruct (Z.eqb_spec (size b) size_required) as [Heq|Hne];
    intros [= <- <-]; exists i, b; simpl; split_and!; auto.
  - rewrite list_lookup_insert_eq by done. by rewrite Heq.
  - rewrite lookup_app_r; rewrite length_take_le by lia; [|done].
    by rewrite Nat.sub_diag.
Qed.

Lemma candidate_true size_required b :
  candidate size_required b = true ↔
  is_free b = true ∧ size_required ≤ size b.
Proof. unfold candidate. by rewrite andb_true_iff, Z.leb_le. Qed.

Lemma allocate_memory_succeeds process_id size_required strategy self :
  0 < size_required →
  strategy = "first_fit"%string ∨ strategy = "best_fit"%string →
  (∃ b, b ∈ memory self ∧ is_free b = true ∧ size_required ≤ size b) →
  is_Some (fst (allocate_memory process_id size_required strategy self)).
Proof.
  intros Hpos Hstrategy Hex. apply not_eq_None_Some.
  rewrite allocate_memory_fails, no_candidate_iff.
  intros [?|[[? ?]|?]]; [lia| |done]. destruct Hstrategy; congruence.
Qed.

(** C8. For a positive [size_required], [allocate_memory] with
    [first_fit] succeeds whenever a Free block of size at least
    [size_required] exists, and the block it takes is the first such block
    of the list: no block before it qualifies, and in a list ordered by
    [start] no qualifying block starts earlier. *)
Theorem first_fit_selects_first process_id size_required self :
  0 < size_required →
  ((∃ b, b ∈ memory self ∧ is_free b = true ∧ size_required ≤ size b) →
   is_Some (fst (allocate_memory process_id size_required "first_fit" self)))
  ∧ ∀ A self',
      allocate_memory process_id size_required "first_fit" self
      = (Some A, self') →
      ∃ i b,
        memory self !! i = Some b
        ∧ is_free b = true ∧ size_required ≤ size b
        ∧ A = start b
        ∧ memory self' !! i
          = Some (Block (start b) size_required occupied (Some process_id))
        ∧ ∀ j x, memory self !! j = Some x →
                 is_free x = true → size_required ≤ size x →
                 (i ≤ j)%nat
                 ∧ (sorted_by_start (memory self) = true → start b ≤ start x).
Proof.
  intros Hpos. split; [apply allocate_memory_succeeds; auto|].
  intros A self' Halloc.
  destruct (allocate_memory_selects _ _ "first_fit" _find_block_first_fit
              _ _ _ eq_refl Halloc) as (i & b & Hfind & Hi & -> & Hi').
  exists i, b.
  apply first_fit_scan_Some in Hfind
    as (l1 & l2 & Hmem & -> & [? ?]%candidate_true & Hl1).
  split_and!; auto.
  intros j x Hj Hfree Hfit.
  assert (0 + length l1 ≤ j)%nat as Hij.
  { destruct (Nat.le_gt_cases (0 + length l1) j) as [|Hlt]; [done|].
    rewrite Hmem, lookup_app_l in Hj by lia.
    rewrite Forall_lookup in Hl1. specialize (Hl1 _ _ Hj).
    assert (candidate size_required x = true) by by apply candidate_true.
    congruence. }
  split; [done|]. intros Hsorted.
  by apply (sorted_by_start_lookup _ _ _ _ _ Hsorted Hij).
Qed.

Lemma first_fit_selects_first_witness :
  let self := Manager 170 [Block 0 50 occupied (Some 1); Block 50 20 free None;
                           Block 70 100 free None] None in
  is_Some (fst (allocate_memory 2 60 "first_fit" self)).
Proof.
  apply (first_fit_selects_first 2 60); [lia|].
  exists (Block 70 100 free None). split; [|split; [reflexivity|simpl; lia]].
  do 2 apply list_elem_of_further. apply list_elem_of_here.
Defined.

(** C2. For a positive [size_required], [allocate_memory] with [best_fit]
    succeeds whenever a Free block of size at least [size_required]
    exists, and the block it takes has the least leftover
    [size - size_required] of all such blocks; among the blocks of that
    least leftover it is the first of the list, hence in a list ordered by
    [start] the one that starts earliest.  In particular, where the Free
    blocks have sizes 50, 20 and 80, a request of 15 takes the block of
    size 20. *)
Theorem best_fit_selects_least_leftover process_id size_required self :
  0 < size_required →
  ((∃ b, b ∈ memory self ∧ is_free b = true ∧ size_required ≤ size b) →
   is_Some (fst (allocate_memory process_id size_required "best_fit" self)))
  ∧ (∀ A self',
      allocate_memory process_id size_required "best_fit" self
      = (Some A, self') →
      ∃ i b,
        memory self !! i = Some b
        ∧ is_free b = true ∧ size_required ≤ size b
        ∧ A = start b
        ∧ memory self' !! i
          = Some (Block (start b) size_required occupied (Some process_id))
        ∧ ∀ j x, memory self !! j = Some x →
                 is_free x = true → size_required ≤ size x →
                 size b - size_required ≤ size x - size_required
                 ∧ (size x - size_required = size b - size_required →
                    (i ≤ j)%nat
                    ∧ (sorted_by_start (memory self) = true →
                       start b ≤ start x)))
  ∧ (size_required = 15 →
     size <$> List.filter is_free (memory self) = [50; 20; 80] →
     ∃ i b self',
       memory self !! i = Some b ∧ is_free b = true ∧ size b = 20
       ∧ allocate_memory process_id 15 "best_fit" self
         = (Some (start b), self')
       ∧ memory self' !! i
         = Some (Block (start b) 15 occupied (Some process_id))).
Proof.
  intros Hpos.
  assert (∀ A self',
      allocate_memory process_id size_required "best_fit" self
      = (Some A, self') →
      ∃ i b,
        memory self !! i = Some b
        ∧ is_free b = true ∧ size_required ≤ size b
        ∧ A = start b
        ∧ memory self' !! i
          = Some (Block (start b) size_required occupied (Some process_id))
        ∧ ∀ j x, memory self !! j = Some x →
                 is_free x = true → size_required ≤ size x →
                 size b - size_required ≤ size x - size_required
                 ∧ (size x - size_required = size b - size_required →
                    (i ≤ j)%nat
                    ∧ (sorted_by_start (memory self) = true →
                       start b ≤ start x))) as Hselect.
  { intros A self' Halloc.
    destruct (allocate_memory_selects _ _ "best_fit" _find_block_best_fit
                _ _ _ eq_refl Halloc) as (i & b & Hfind & Hi & -> & Hi').
    exists i, b.
    apply find_block_best_fit_Some in Hfind
      as (_ & [? ?]%candidate_true & Hmin).
    split_and!; auto.
    intros j x Hj Hfree Hfit.
    assert (candidate size_required x = true) as Hx by by apply candidate_true.
    destruct (Hmin _ _ Hj Hx) as [Hle Hlt]. split; [done|]. intros Htie.
    assert (i ≤ j)%nat as Hij.
    { destruct (Nat.le_gt_cases i j) as [|Hji]; [done|].
      specialize (Hlt Hji). lia. }
    split; [done|]. intros Hsorted.
    by apply (sorted_by_start_lookup _ _ _ _ _ Hsorted Hij). }
  split; [apply allocate_memory_succeeds; auto|]. split; [done|].
  intros -> Hsizes.
  assert (∀ x, x ∈ memory self → is_free x = true →
               size x = 50 ∨ size x = 20 ∨ size x = 80) as Hfree.
  { intros x Hx Hfx.
    assert (size x ∈ size <$> List.filter is_free (memory self)) as Hin.
    { apply list_elem_of_fmap. exists x. split; [done|].
      apply list_elem_of_In, filter_In. by rewrite <- list_elem_of_In. }
    rewrite Hsizes, !elem_of_cons, elem_of_nil in Hin. tauto. }
  assert (∃ y, y ∈ memory self ∧ is_free y = true ∧ size y = 20)
    as (y & Hy & Hfy & Hsy).
  { assert (20 ∈ size <$> List.filter is_free (memory self)) as Hin
      by (rewrite Hsizes, !elem_of_cons; auto).
    apply list_elem_of_fmap in Hin as (y & ? & Hy).
    apply list_elem_of_In, filter_In in Hy as [Hy ?].
    exists y. by rewrite list_elem_of_In. }
  destruct (allocate_memory_succeeds process_id 15 "best_fit" self)
    as [A HA]; [lia|auto|exists y; split_and!; auto; lia|].
  destruct (allocate_memory process_id 15 "best_fit" self)
    as [A' self'] eqn:Halloc. simpl in HA. subst A'.
  destruct (Hselect _ _ eq_refl) as (i & b & Hi & Hfb & Hfit & -> & Hi' & Hmin).
  exists i, b, self'. split_and!; auto.
  apply list_elem_of_lookup in Hy as [j Hj].
  destruct (Hmin _ _ Hj Hfy) as [Hle _]; [lia|].
  destruct (Hfree b) as [?|[?|?]]; [by eapply list_elem_of_lookup_2|done|lia..].
Qed.

Lemma best_fit_selects_least_leftover_witness :
  let self := Manager 170 [Block 0 50 free None;
                           Block 50 10 occupied (Some 1);
                           Block 60 20 free None;
                           Block 80 10 occupied (Some 2);
                           Block 90 80 free None] None in
  ∃ i b self',
    memory self !! i = Some b ∧ is_free b = true ∧ size b = 20
    ∧ allocate_memory 3 15 "best_fit" self = (Some (start b), self')
    ∧ memory self' !! i = Some (Block (start b) 15 occupied (Some 3)).
Proof.
  apply (best_fit_selects_least_leftover 3 15); [lia|reflexivity|reflexivity].
Defined.

(** C4. Let the search of a valid strategy return the Free block [b] at
    index [i] for a positive [size_required].  If [b] has exactly the
    requested size, [allocate_memory] turns the block at [i] into an
    Occupied block of the given owner, in place, keeps the number of
    blocks and returns [b]'s [start].  If [b] is larger, it puts in [b]'s
    place an Occupied block of [size_required] at [b]'s [start] followed by
    a Free block of the remaining size at [start + size_required], which
    makes one block more, and returns the Occupied block's [start]. *)
Theorem exact_fit_or_split
    process_id size_required strategy find self i b :
  0 < size_required →
  find_block_func strategy = Some find →
  find (memory self) size_required = Some (i, b) →
  memory self !! i = Some b ∧ is_free b = true
  ∧ (size b = size_required →
     let mem' := <[i := Block (start b) (size b) occupied (Some process_id)]>
                   (memory self) in
     allocate_memory process_id size_required strategy self
     = (Some (start b), set_memory self mem')
     ∧ mem' !! i = Some (Block (start b) (size b) occupied (Some process_id))
     ∧ length mem' = length (memory self))
  ∧ (size_required < size b →
     let new_occupied_block :=
       Block (start b) size_required occupied (Some process_id) in
     let new_free_block :=
       Block (start b + size_required) (size b - size_required) free None in
     let mem' := take i (memory self)
                   ++ [new_occupied_block; new_free_block]
                   ++ drop (S i) (memory self) in
     allocate_memory process_id size_required strategy self
     = (Some (start new_occupied_block), set_memory self mem')
     ∧ mem' !! i = Some new_occupied_block
     ∧ mem' !! S i = Some new_free_block
     ∧ length mem' = S (length (memory self))).
Proof.
  intros Hpos Hstrategy Hfind.
  destruct (find_block_Some _ _ _ _ _ _ Hstrategy Hfind)
    as [Hi [Hfree Hfit]%candidate_true].
  pose proof (lookup_lt_Some _ _ _ Hi) as Hlt.
  assert (length (take i (memory self)) = i) as Htake
    by (rewrite length_take_le; lia).
  split_and!; auto.
  - intros Heq mem'. unfold allocate_memory.
    destruct (Z.leb_spec size_required 0); [lia|].
    rewrite Hstrategy, Hfind, (proj2 (Z.eqb_eq _ _) Heq).
    split_and!; auto.
    + unfold mem'. by rewrite list_lookup_insert_eq.
    + unfold mem'. by rewrite length_insert.
  - intros Hlarger occ rem mem'. unfold allocate_memory.
    destruct (Z.leb_spec size_required 0); [lia|].
    rewrite Hstrategy, Hfind.
    destruct (Z.eqb_spec (size b) size_required); [lia|].
    split_and!; auto.
    + unfold mem'. rewrite lookup_app_r; rewrite Htake; [|done].
      by rewrite Nat.sub_diag.
    + unfold mem'. rewrite lookup_app_r; rewrite Htake; [|lia].
      by replace (S i - i)%nat with 1%nat by lia.
    + unfold mem'. rewrite !length_app, Htake, length_drop. simpl. lia.
Qed.

Lemma exact_fit_or_split_witness :
  let self := Manager 1000 [Block 0 1000 free None] None in
  let b := Block 0 1000 free None in
  memory self !! 0%nat = Some b ∧ is_free b = true
  ∧ (size b = 100 →
     let mem' := <[0%nat := Block (start b) (size b) occupied (Some 1)]>
                   (memory self) in
     allocate_memory 1 100 "first_fit" self
     = (Some (start b), set_memory self mem')
     ∧ mem' !! 0%nat = Some (Block (start b) (size b) occupied (Some 1))
     ∧ length mem' = length (memory self))
  ∧ (100 < size b →
     let new_occupied_block := Block (start b) 100 occupied (Some 1) in
     let new_free_block := Block (start b + 100) (size b - 100) free None in
     let mem' := take 0 (memory self)
                   ++ [new_occupied_block; new_free_block]
                   ++ drop 1 (memory self) in
     allocate_memory 1 100 "first_fit" self
     = (Some (start new_occupied_block), set_memory self mem')
     ∧ mem' !! 0%nat = Some new_occupied_block
     ∧ mem' !! 1%nat = Some new_free_block
     ∧ length mem' = S (length (memory self))).
Proof.
  apply (exact_fit_or_split 1 100 "first_fit" _find_block_first_fit
           (Manager 1000 [Block 0 1000 free None] None) 0
           (Block 0 1000 free None)); [lia|reflexivity|reflexivity].
Defined.

Lemma owned_by_true process_id b :
  owned_by process_id b = true ↔
  is_occupied b = true ∧ pid b = Some process_id.
Proof.
  unfold owned_by, pid_is. rewrite andb_true_iff.
  destruct (pid b) as [p|]; [|by split; intros [? ?]].
  rewrite Z.eqb_eq. split; intros [? ?]; split; congruence.
Qed.

Lemma sorted_by_start_replace l1 b b' l2 :
  start b' = start b →
  sorted_by_start (l1 ++ b :: l2) = true →
  sorted_by_start (l1 ++ b' :: l2) = true.
Proof.
  intros Hst. unfold sorted_by_start.
  rewrite (adjacentb_app_cons _ l1 b l2), (adjacentb_app_cons _ l1 b' l2).
  rewrite !andb_true_iff. intros [H1 H2]. split.
  - revert H1. apply adjacentb_snoc_mono. intros x. by rewrite Hst.
  - revert H2. apply adjacentb_cons_mono. intros x. by rewrite Hst.
Qed.

(** C6. [deallocate_memory] fails if and only if no Occupied block of the
    list has the given owner, and then the manager is unchanged.  When it
    succeeds, the first Occupied block of that owner, in list order, is
    made Free with no owner and the coalescing pass is run on the result;
    on a block list ordered by [start], no two adjacent blocks are both
    Free on return. *)
Theorem deallocate_memory_outcome process_id self :
  (fst (deallocate_memory process_id self) = false ↔
     ¬ ∃ b, b ∈ memory self ∧ is_occupied b = true
            ∧ pid b = Some process_id)
  ∧ (fst (deallocate_memory process_id self) = false →
     snd (deallocate_memory process_id self) = self)
  ∧ (fst (deallocate_memory process_id self) = true →
     ∃ i b,
       memory self !! i = Some b
       ∧ is_occupied b = true ∧ pid b = Some process_id
       ∧ (∀ j x, memory self !! j = Some x → is_occupied x = true →
                 pid x = Some process_id → (i ≤ j)%nat)
       ∧ snd (deallocate_memory process_id self)
         = _coalesce_free_blocks
             (set_memory self
                (<[i := Block (start b) (size b) free None]> (memory self)))
       ∧ (sorted_by_start (memory self) = true →
          no_adjacent_free (memory (snd (deallocate_memory process_id self)))
          = true)).
Proof.
  destruct (deallocate_memory process_id self) as [[|] self'] eqn:Hde; simpl.
  - apply deallocate_memory_true in Hde
      as (l1 & b & l2 & Hmem & Hb & Hl1 & ->).
    pose proof Hb as [Hocc Hpid]%owned_by_true.
    split_and!; [|done|intros _].
    { split; [done|]. intros []. exists b. split_and!; auto.
      rewrite Hmem, elem_of_app, elem_of_cons. auto. }
    exists (length l1), b. rewrite Hmem. split_and!; auto.
    + by rewrite list_lookup_middle.
    + intros j x Hj Hx Hpx.
      destruct (Nat.le_gt_cases (length l1) j) as [|Hlt]; [done|].
      rewrite lookup_app_l in Hj by done.
      rewrite Forall_lookup in Hl1. specialize (Hl1 _ _ Hj).
      assert (owned_by process_id x = true) by by apply owned_by_true.
      congruence.
    + do 2 f_equal. rewrite insert_app_r_alt by lia.
      by rewrite Nat.sub_diag.
    + intros Hsorted. rewrite coalesce_free_blocks_sorted.
      * apply coalesce_scan_coalesced.
      * simpl. revert Hsorted. by apply sorted_by_start_replace.
  - apply deallocate_memory_false in Hde as [-> Hall].
    split_and!; [|done..]. split; [intros _|done].
    intros (b & Hb & Hocc & Hpid). rewrite Forall_forall in Hall.
    specialize (Hall _ Hb).
    assert (owned_by process_id b = true) by by apply owned_by_true.
    congruence.
Qed.

Lemma deallocate_memory_outcome_witness :
  let self := Manager 1000 [Block 0 100 occupied (Some 1);
                            Block 100 900 free None] None in
  ∃ i b,
    memory self !! i = Some b
    ∧ is_occupied b = true ∧ pid b = Some 1
    ∧ (∀ j x, memory self !! j = Some x → is_occupied x = true →
              pid x = Some 1 → (i ≤ j)%nat)
    ∧ snd (deallocate_memory 1 self)
      = _coalesce_free_blocks
          (set_memory self
             (<[i := Block (start b) (size b) free None]> (memory self)))
    ∧ (sorted_by_start (memory self) = true →
       no_adjacent_free (memory (snd (deallocate_memory 1 self))) = true).
Proof.
  apply (deallocate_memory_outcome 1
           (Manager 1000 [Block 0 100 occupied (Some 1);
                          Block 100 900 free None] None)).
  reflexivity.
Defined.

(** C9. In every block-list state, that is on every block list ordered by
    ascending [start], as the address space is and as every list that
    [_coalesce_free_blocks] receives from the manager is, running the pass
    twice in a row gives the same block list, and the same manager, as
    running it once.  Nothing else is assumed of the list: sizes, gaps,
    owners and neighbouring Free blocks are arbitrary. *)
Theorem coalesce_free_blocks_idempotent self :
  sorted_by_start (memory self) = true →
  _coalesce_free_blocks (_coalesce_free_blocks self)
  = _coalesce_free_blocks self.
Proof.
  intros Hsorted. unfold _coalesce_free_blocks, set_memory. simpl. f_equal.
  pose proof (sort_by_start_sorted _ (coalesce_scan_sorted _ Hsorted)) as Hsort.
  rewrite Hsort.
  rewrite (coalesce_scan_fixed (coalesce_scan (memory self)))
    by apply coalesce_scan_coalesced.
  done.
Qed.

Lemma coalesce_free_blocks_idempotent_witness :
  let self := Manager 500 [Block 0 200 free None; Block 200 100 free None;
                           Block 300 50 occupied (Some 3);
                           Block 350 150 free None] None in
  _coalesce_free_blocks (_coalesce_free_blocks self)
  = _coalesce_free_blocks self.
Proof.
  apply (coalesce_free_blocks_idempotent
           (Manager 500 [Block 0 200 free None; Block 200 100 free None;
                         Block 300 50 occupied (Some 3);
                         Block 350 150 free None] None)).
  reflexivity.
Defined.

(** ** Owners *)

Lemma owner_count_app process_id l1 l2 :
  owner_count process_id (l1 ++ l2)
  = (owner_count process_id l1 + owner_count process_id l2)%nat.
Proof. unfold owner_count. by rewrite List.filter_app, length_app. Qed.

Lemma owner_count_cons process_id b l :
  owner_count process_id (b :: l)
  = ((if owned_by process_id b then 1 else 0) + owner_count process_id l)%nat.
Proof. unfold owner_count. simpl. by destruct (owned_by process_id b). Qed.

Lemma owner_count_zero process_id l :
  owner_count process_id l = 0%nat ↔
  Forall (λ x, owned_by process_id x = false) l.
Proof.
  induction l as [|x l IH]; [by split; [constructor|]|].
  rewrite owner_count_cons, Forall_cons, <- IH.
  destruct (owned_by process_id x); split; try lia; intros [? ?]; auto.
Qed.

Lemma owned_by_free process_id b :
  is_free b = true → owned_by process_id b = false.
Proof. unfold owned_by, is_occupied. by intros ->. Qed.

Lemma owned_by_new process_id q a s :
  owned_by q (Block a s occupied (Some process_id))
  = bool_decide (process_id = q).
Proof.
  unfold owned_by, pid_is. simpl. destruct (Z.eqb_spec process_id q).
  - by rewrite bool_decide_eq_true_2.
  - by rewrite bool_decide_eq_false_2.
Qed.

(** An allocation adds one Occupied block of its owner and changes the
    count of no other owner. *)
Lemma allocate_memory_owner_count process_id size_required strategy self A self' q :
  allocate_memory process_id size_required strategy self = (Some A, self') →
  owner_count q (memory self')
  = ((if bool_decide (process_id = q) then 1 else 0)
     + owner_count q (memory self))%nat.
Proof.
  intros (l1 & b & l2 & -> & [Hfree _]%candidate_true & _ & _ & Hcase)
    %allocate_memory_Some.
  destruct Hcase as [[_ ->]|[_ ->]]; simpl;
    rewrite !owner_count_app, !owner_count_cons, owned_by_new,
      !(owned_by_free q) by done; lia.
Qed.

(** A deallocation raises the count of no owner. *)
Lemma deallocate_memory_owner_count process_id self q :
  (owner_count q (memory (snd (deallocate_memory process_id self)))
   ≤ owner_count q (memory self))%nat.
Proof.
  destruct (deallocate_memory process_id self) as [[|] self'] eqn:Hde; simpl.
  - apply deallocate_memory_true in Hde as (l1 & b & l2 & -> & _ & _ & ->).
    simpl. rewrite sort_by_start_owner_count, coalesce_scan_owner_count.
    rewrite !owner_count_app, !owner_count_cons, (owned_by_free q) by done.
    lia.
  - by apply deallocate_memory_false in Hde as [-> _].
Qed.

Lemma run_single_ownership calls self :
  (∀ q, (owner_count q (memory self) ≤ 1)%nat) →
  fresh_owners self calls = true →
  ∀ q, (owner_count q (memory (run calls self)) ≤ 1)%nat.
Proof.
  revert self. induction calls as [|c calls IH]; intros self Hone; [done|].
  change (run (c :: calls) self) with (run calls (step self c)).
  simpl. intros [Hfresh Hrest]%andb_true_iff. apply IH; [|done].
  intros q. destruct c as [process_id size_required strategy|process_id].
  - apply bool_decide_eq_true in Hfresh. simpl.
    destruct (allocate_memory process_id size_required strategy self)
      as [[A|] self'] eqn:Halloc; simpl.
    + rewrite (allocate_memory_owner_count _ _ _ _ _ _ q Halloc).
      case_bool_decide; [subst q; lia|apply Hone].
    + by apply allocate_memory_None in Halloc as ->.
  - simpl. etransitivity; [apply deallocate_memory_owner_count|apply Hone].
Qed.

(** C3, as the code has it.  [allocate_memory] does not look at the owners
    already in the list; the front end gives every allocation a new owner.
    From a constructed manager, along every finite sequence of
    [allocate_memory] and [deallocate_memory] calls in which each
    allocation is made for an owner that holds no Occupied block at the
    time of the call, at most one Occupied block carries any given owner
    identifier. *)
Theorem single_ownership_for_fresh_owners total self calls owner :
  __init__ total = Some self →
  fresh_owners self calls = true →
  (owner_count owner (memory (run calls self)) ≤ 1)%nat.
Proof.
  intros Hinit Hfresh. apply run_single_ownership; [|done].
  intros q. revert Hinit. unfold __init__. destruct (total <=? 0); [done|].
  intros [= <-]. simpl. unfold owner_count. simpl. lia.
Qed.

Lemma single_ownership_for_fresh_owners_witness :
  (owner_count 1
     (memory (run [Allocate 1 200 "first_fit"; Allocate 2 100 "best_fit";
                   Deallocate 1; Allocate 1 50 "best_fit"]
                  (Manager 500 [Block 0 500 free None] None))) ≤ 1)%nat.
Proof.
  apply (single_ownership_for_fresh_owners 500
           (Manager 500 [Block 0 500 free None] None)); reflexivity.
Defined.

(** C3 as stated fails: two allocations for the same owner leave two
    Occupied blocks that carry it. *)
Lemma double_ownership_counterexample :
  ¬ (∀ total self calls owner,
       __init__ total = Some self →
       (owner_count owner (memory (run calls self)) ≤ 1)%nat).
Proof.
  intros Hclaim.
  specialize (Hclaim 100 (Manager 100 [Block 0 100 free None] None)
                [Allocate 1 10 "first_fit"; Allocate 1 10 "first_fit"] 1
                eq_refl).
  vm_compute in Hclaim. lia.
Qed.

(** ** Allocate, deallocate, allocate again *)

Lemma find_owner_middle process_id i l1 b l2 :
  Forall (λ x, owned_by process_id x = false) l1 →
  owned_by process_id b = true →
  find_owner i (l1 ++ b :: l2) process_id = Some (i + length l1)%nat.
Proof.
  intros Hl1 Hb. revert i.
  induction Hl1 as [|x l1 Hx _ IH]; intros i; simpl.
  - fold (owned_by process_id b). rewrite Hb. f_equal. lia.
  - fold (owned_by process_id x). rewrite Hx, IH. f_equal. lia.
Qed.

Lemma deallocate_memory_middle process_id self l1 b l2 :
  memory self = l1 ++ b :: l2 →
  Forall (λ x, owned_by process_id x = false) l1 →
  owned_by process_id b = true →
  deallocate_memory process_id self
  = (true, _coalesce_free_blocks
             (set_memory self
                (l1 ++ Block (start b) (size b) free None :: l2))).
Proof.
  intros Hmem Hl1 Hb. unfold deallocate_memory.
  rewrite Hmem, (find_owner_middle _ _ _ _ _ Hl1 Hb). simpl.
  rewrite list_lookup_middle by done.
  rewrite insert_app_r_alt by lia. by rewrite Nat.sub_diag.
Qed.

Lemma coalesce_scan_keep y rest :
  is_free y = false
  ∨ match rest with z :: _ => is_free z = false | [] => True end →
  coalesce_scan (y :: rest) = y :: coalesce_scan rest.
Proof.
  destruct (is_free y) eqn:Hy; [|by rewrite coalesce_scan_occupied].
  intros [?|Hrest]; [done|]. destruct rest as [|z rest].
  - by rewrite coalesce_scan_free_last.
  - by rewrite coalesce_scan_free_occupied, <- coalesce_scan_occupied.
Qed.

(** The scan copies a prefix that has no two adjacent Free blocks and
    does not end in a Free block. *)
Lemma coalesce_scan_prefix l1 x r :
  no_adjacent_free (l1 ++ [x]) = true → is_free x = true →
  coalesce_scan (l1 ++ r) = l1 ++ coalesce_scan r.
Proof.
  intros Hco Hx. induction l1 as [|y l1 IH]; [done|].
  change ((y :: l1) ++ r) with (y :: (l1 ++ r)).
  rewrite coalesce_scan_keep.
  - simpl. f_equal. apply IH. by eapply adjacentb_tail.
  - revert Hco. unfold no_adjacent_free.
    destruct l1 as [|z l1]; cbn [app adjacentb].
    + rewrite Hx, !andb_true_r. intros ->%negb_true_iff. by left.
    + intros [Hyz%negb_true_iff%andb_false_iff _]%andb_true_iff. tauto.
Qed.

Lemma free_block_eta b :
  is_free b = true → free_unowned b →
  Block (start b) (size b) free None = b.
Proof.
  intros Hfree Hun. specialize (Hun Hfree). destruct b as [a s [] p]; try done.
  simpl in Hun. by subst p.
Qed.

Lemma allocate_memory_address process_id process_id' size_required strategy self :
  fst (allocate_memory process_id size_required strategy self)
  = fst (allocate_memory process_id' size_required strategy self).
Proof.
  unfold allocate_memory. destruct (size_required <=? 0); [done|].
  destruct (find_block_func strategy) as [find|]; [|done].
  destruct (find (memory self) size_required) as [[i b]|]; [|done].
  by destruct (size b =? size_required).
Qed.

Lemma set_memory_id self : set_memory self (memory self) = self.
Proof. by destruct self. Qed.

(** In a state that satisfies the invariant, freeing a block just
    allocated to an owner that held nothing restores the state. *)
Lemma allocate_deallocate_restores owner size_required strategy self A m1 :
  inv self →
  owner_count owner (memory self) = 0%nat →
  allocate_memory owner size_required strategy self = (Some A, m1) →
  deallocate_memory owner m1 = (true, self).
Proof.
  intros [Hne Hch Htot Hco Hun] Hfresh Halloc.
  apply allocate_memory_Some in Halloc
    as (l1 & b & l2 & Hmem & [Hfree _]%candidate_true & _ & _ & Hcase).
  pose proof (ascending_sorted _ (chain_ascending _ _ Hch)) as Hsorted.
  rewrite Hmem in Hfresh, Hco, Hun, Hsorted.
  apply owner_count_zero, Forall_app in Hfresh as [Hl1 _].
  unfold no_adjacent_free in Hco. rewrite adjacentb_app_cons in Hco.
  apply andb_true_iff in Hco as [Hco1 Hco2].
  apply Forall_app in Hun as [_ Hun]. inversion_clear Hun as [|?? Hb _].
  assert (∀ freed, coalesce_scan freed = b :: l2 →
    _coalesce_free_blocks (set_memory self (l1 ++ freed)) = self) as Hrestore.
  { intros freed Hscan. unfold _coalesce_free_blocks. simpl.
    rewrite (coalesce_scan_prefix l1 b) by done.
    rewrite Hscan, sort_by_start_sorted by done.
    rewrite <- Hmem. by destruct self. }
  destruct Hcase as [[Hsize ->]|[Hsize ->]].
  - erewrite deallocate_memory_middle;
      [|reflexivity|done|by rewrite owned_by_new, bool_decide_eq_true_2].
    simpl. f_equal. apply Hrestore.
    rewrite free_block_eta by done. by apply coalesce_scan_fixed.
  - erewrite deallocate_memory_middle;
      [|reflexivity|done|by rewrite owned_by_new, bool_decide_eq_true_2].
    simpl. f_equal. apply Hrestore.
    rewrite coalesce_scan_free_free by done. unfold absorb. simpl.
    replace (size_required + (size b - size_required)) with (size b) by lia.
    rewrite free_block_eta by done. by apply coalesce_scan_fixed.
Qed.

(** C7, as the code has it.  [deallocate_memory] frees the first Occupied
    block of the owner, so the owner must hold no block before the first
    allocation.  In every state reached from a constructed manager, for an
    owner that holds no Occupied block there: if
    [allocate_memory owner S strategy] returns address [A] and
    [deallocate_memory owner] follows at once, the deallocation succeeds
    and restores the state, and a further [allocate_memory] of size [S]
    with the same strategy, for any owner, returns [A] again. *)
Theorem reallocation_round_trip total self calls owner S strategy A m1 :
  __init__ total = Some self →
  owner_count owner (memory (run calls self)) = 0%nat →
  allocate_memory owner S strategy (run calls self) = (Some A, m1) →
  deallocate_memory owner m1 = (true, run calls self)
  ∧ ∀ owner',
      fst (allocate_memory owner' S strategy
             (snd (deallocate_memory owner m1))) = Some A.
Proof.
  intros Hinit Hfresh Halloc.
  pose proof (run_inv calls self (init_inv _ _ Hinit)) as Hinv.
  pose proof (allocate_deallocate_restores _ _ _ _ _ _ Hinv Hfresh Halloc)
    as Hde.
  split; [done|]. intros owner'. rewrite Hde. simpl.
  by rewrite (allocate_memory_address owner' owner), Halloc.
Qed.

Lemma reallocation_round_trip_witness :
  let m := run [Allocate 1 10 "first_fit"]
               (Manager 100 [Block 0 100 free None] None) in
  let m1 := Manager 100 [Block 0 10 occupied (Some 1);
                         Block 10 10 occupied (Some 2);
                         Block 20 80 free None] None in
  deallocate_memory 2 m1 = (true, m)
  ∧ ∀ owner',
      fst (allocate_memory owner' 10 "best_fit"
             (snd (deallocate_memory 2 m1))) = Some 10.
Proof.
  apply (reallocation_round_trip 100
           (Manager 100 [Block 0 100 free None] None)
           [Allocate 1 10 "first_fit"] 2 10 "best_fit" 10);
    reflexivity.
Defined.

(** C7 as stated fails for an owner that already holds a block: the
    deallocation frees the owner's first block, not the one just
    allocated, and the next allocation lands there. *)
Lemma reallocation_round_trip_counterexample :
  ¬ (∀ total self calls owner S strategy A m1 owner',
       __init__ total = Some self →
       0 < S →
       allocate_memory owner S strategy (run calls self) = (Some A, m1) →
       fst (allocate_memory owner' S strategy
              (snd (deallocate_memory owner m1))) = Some A).
Proof.
  intros Hclaim.
  specialize (Hclaim 100 (Manager 100 [Block 0 100 free None] None)
                [Allocate 1 10 "first_fit"] 1 10 "first_fit"%string 10
                (Manager 100 [Block 0 10 occupied (Some 1);
                              Block 10 10 occupied (Some 1);
                              Block 20 80 free None] None)
                1 eq_refl eq_refl eq_refl).
  vm_compute in Hclaim. discriminate Hclaim.
Qed.

(** ** Utilization and free-block queries *)

Lemma occupied_total_cons b l :
  occupied_total (b :: l)
  = (if is_occupied b then size b else 0) + occupied_total l.
Proof. unfold occupied_total. simpl. by destruct (is_occupied b). Qed.

Lemma occupied_total_app l1 l2 :
  occupied_total (l1 ++ l2) = occupied_total l1 + occupied_total l2.
Proof.
  induction l1 as [|x l1 IH]; [done|].
  change ((x :: l1) ++ l2) with (x :: (l1 ++ l2)).
  rewrite !occupied_total_cons, IH. lia.
Qed.

Lemma free_total_cons b l :
  free_total (b :: l) = (if is_free b then size b else 0) + free_total l.
Proof. unfold free_total. simpl. by destruct (is_free b). Qed.

Lemma total_size_split l : total_size l = occupied_total l + free_total l.
Proof.
  induction l as [|x l IH]; [done|].
  rewrite occupied_total_cons, free_total_cons. simpl. rewrite IH.
  unfold is_occupied. destruct (is_free x); simpl; lia.
Qed.

Lemma occupied_total_nonneg l :
  Forall (λ b, 0 < size b) l → 0 ≤ occupied_total l.
Proof.
  induction 1 as [|x l Hx _ IH]; [done|]. rewrite occupied_total_cons.
  destruct (is_occupied x); lia.
Qed.

Lemma free_total_nonneg l : Forall (λ b, 0 < size b) l → 0 ≤ free_total l.
Proof.
  induction 1 as [|x l Hx _ IH]; [done|]. rewrite free_total_cons.
  destruct (is_free x); lia.
Qed.

Lemma list_max_spec x l :
  list_max x l ∈ x :: l ∧ Forall (λ y, y ≤ list_max x l) (x :: l).
Proof.
  unfold list_max. revert x. induction l as [|y l IH]; intros x; simpl.
  - split; [apply list_elem_of_here|]. by repeat constructor.
  - destruct (IH (Z.max x y)) as [Hin Hall]. inversion_clear Hall as [|?? Hxy Hl].
    split.
    + apply elem_of_cons in Hin as [Hin|Hin]; [|by do 2 right].
      rewrite Hin. destruct (Z.max_spec x y) as [[_ ->]|[_ ->]];
        [right; left|left].
    + repeat constructor; [lia..|done].
Qed.

Lemma list_min_spec x l :
  list_min x l ∈ x :: l ∧ Forall (λ y, list_min x l ≤ y) (x :: l).
Proof.
  unfold list_min. revert x. induction l as [|y l IH]; intros x; simpl.
  - split; [apply list_elem_of_here|]. by repeat constructor.
  - destruct (IH (Z.min x y)) as [Hin Hall]. inversion_clear Hall as [|?? Hxy Hl].
    split.
    + apply elem_of_cons in Hin as [Hin|Hin]; [|by do 2 right].
      rewrite Hin. destruct (Z.min_spec x y) as [[_ ->]|[_ ->]];
        [left|right; left].
    + repeat constructor; [lia..|done].
Qed.

Lemma free_sizes_elem (mem : list block) z :
  z ∈ size <$> List.filter is_free mem ↔
  ∃ b, b ∈ mem ∧ is_free b = true ∧ size b = z.
Proof.
  rewrite list_elem_of_fmap. split.
  - intros (b & -> & Hb). apply list_elem_of_In, filter_In in Hb as [Hb ?].
    exists b. by rewrite list_elem_of_In.
  - intros (b & Hb & Hfree & <-). exists b. split; [done|].
    apply list_elem_of_In, filter_In. by rewrite <- list_elem_of_In.
Qed.

Lemma allocate_memory_succeeds_iff process_id size_required strategy self :
  0 < size_required →
  strategy = "first_fit"%string ∨ strategy = "best_fit"%string →
  is_Some (fst (allocate_memory process_id size_required strategy self)) ↔
  ∃ b, b ∈ memory self ∧ is_free b = true ∧ size_required ≤ size b.
Proof.
  intros Hpos Hstrategy. split; [|by apply allocate_memory_succeeds].
  rewrite <- not_eq_None_Some, allocate_memory_fails, no_candidate_iff.
  intros Hs.
  destruct (decide (Exists (λ b, candidate size_required b = true)
                      (memory self))) as [Hex|Hno].
  - apply Exists_exists in Hex as (b & ? & [? ?]%candidate_true). eauto.
  - destruct Hs. right. right. intros (b & Hb & Hfree & Hfit).
    destruct Hno. apply Exists_exists. exists b. split; [done|].
    by apply candidate_true.
Qed.

(** X1. For a positive [size_required] and a valid strategy,
    [allocate_memory] succeeds exactly when [size_required] is at most the
    [largest_free_block] that [get_free_block_info] reports; this holds
    in every state. *)
Theorem allocation_succeeds_iff_fits_largest
    process_id size_required strategy self :
  0 < size_required →
  strategy = "first_fit"%string ∨ strategy = "best_fit"%string →
  is_Some (fst (allocate_memory process_id size_required strategy self)) ↔
  size_required ≤ largest_free_block self.
Proof.
  intros Hpos Hstrategy. rewrite allocate_memory_succeeds_iff by done.
  unfold largest_free_block, get_free_block_info. simpl.
  pose proof (free_sizes_elem (memory self)) as Helem.
  destruct (size <$> List.filter is_free (memory self)) as [|x l].
  - split; [|lia]. intros (b & Hb & Hfree & _).
    assert (size b ∈ @nil Z) as Hnil by (apply Helem; eauto).
    by apply elem_of_nil in Hnil.
  - destruct (list_max_spec x l) as [Hin Hall]. split.
    + intros (b & Hb & Hfree & Hfit).
      assert (size b ∈ x :: l) as Hsb by (apply Helem; eauto).
      rewrite Forall_forall in Hall. specialize (Hall _ Hsb). lia.
    + intros Hfit. apply Helem in Hin as (b & Hb & Hfree & Hsize).
      exists b. split_and!; auto. lia.
Qed.

Lemma allocation_succeeds_iff_fits_largest_witness :
  let self := Manager 170 [Block 0 50 free None;
                           Block 50 10 occupied (Some 1);
                           Block 60 20 free None;
                           Block 80 10 occupied (Some 2);
                           Block 90 80 free None] None in
  is_Some (fst (allocate_memory 3 80 "best_fit" self)) ↔
  80 ≤ largest_free_block self.
Proof.
  apply (allocation_succeeds_iff_fits_largest 3 80 "best_fit"); [lia|by right].
Defined.

Lemma sum_bounds (l : list Z) lo hi :
  Forall (λ y, lo ≤ y ≤ hi) l →
  Z.of_nat (length l) * lo ≤ foldr Z.add 0 l ≤ Z.of_nat (length l) * hi.
Proof.
  induction 1 as [|y l Hy _ IH]; [simpl; lia|].
  cbn [length foldr]. rewrite Nat2Z.inj_succ. lia.
Qed.

Lemma sum_nonneg (l : list Z) :
  (∀ x, x ∈ l → 0 < x) → 0 ≤ foldr Z.add 0 l.
Proof.
  induction l as [|w l IH]; intros Hl; [done|]. simpl.
  assert (0 < w) by (apply Hl; left).
  assert (0 ≤ foldr Z.add 0 l) by (apply IH; intros; apply Hl; by right).
  lia.
Qed.

Lemma elem_le_sum (l : list Z) z :
  (∀ x, x ∈ l → 0 < x) → z ∈ l → z ≤ foldr Z.add 0 l.
Proof.
  induction l as [|w l IH]; intros Hl Hz; [by apply elem_of_nil in Hz|].
  simpl. assert (0 < w) by (apply Hl; left).
  assert (0 ≤ foldr Z.add 0 l) by (apply sum_nonneg; intros; apply Hl; by right).
  apply elem_of_cons in Hz as [->|Hz]; [lia|].
  assert (z ≤ foldr Z.add 0 l) by (apply IH; [intros; apply Hl; by right|done]).
  lia.
Qed.

Lemma free_count_zero l :
  free_count l = 0%nat ↔ Forall (λ b, is_free b = false) l.
Proof.
  unfold free_count. induction l as [|x l IH]; [by split; [constructor|]|].
  simpl. rewrite Forall_cons, <- IH.
  destruct (is_free x); simpl; split; try done; try lia; intros [? ?]; auto.
Qed.

Lemma length_occupied_free l :
  length l = (occupied_count l + free_count l)%nat.
Proof.
  unfold occupied_count, free_count, is_occupied.
  induction l as [|x l IH]; [done|]. simpl.
  destruct (is_free x); simpl; lia.
Qed.

Lemma no_adjacent_free_count l :
  no_adjacent_free l = true →
  (free_count l
   ≤ occupied_count l
     + match l with b :: _ => if is_free b then 1 else 0 | [] => 0 end)%nat.
Proof.
  unfold free_count, occupied_count, is_occupied.
  induction l as [|x l IH]; [done|]. intros Hco.
  specialize (IH (adjacentb_tail _ _ _ Hco)). simpl.
  destruct (is_free x) eqn:Hx; simpl.
  - destruct l as [|y l]; [simpl; lia|].
    unfold no_adjacent_free in Hco. simpl in Hco. rewrite Hx in Hco.
    apply andb_true_iff in Hco as [Hy%negb_true_iff _]. simpl in Hy.
    rewrite Hy in IH. lia.
  - destruct l as [|y l]; [simpl; lia|]. destruct (is_free y); lia.
Qed.

Lemma reachable_inv total self calls :
  __init__ total = Some self →
  inv (run calls self) ∧ total_memory_size (run calls self) = total.
Proof.
  intros Hinit. split; [by eapply run_inv, init_inv|].
  rewrite run_total_memory_size. revert Hinit. unfold __init__.
  destruct (total <=? 0); [done|]. by intros [= <-].
Qed.

(** X2. In every state reached from a constructed manager, the
    [largest_free_block] and the [smallest_free_block] reported by
    [get_free_block_info] are 0 exactly when there is no Free block;
    otherwise they are positive, the smallest is at most the largest, and
    the largest is at most [free_size]. *)
Theorem free_block_info_reachable total self calls :
  __init__ total = Some self →
  let m := run calls self in
  (num_free_blocks m = 0%nat ↔ largest_free_block m = 0)
  ∧ (num_free_blocks m = 0%nat ↔ smallest_free_block m = 0)
  ∧ (num_free_blocks m = 0%nat ↔ free_size m = 0)
  ∧ (num_free_blocks m ≠ 0%nat →
     0 < smallest_free_block m
     ∧ smallest_free_block m ≤ largest_free_block m
     ∧ largest_free_block m ≤ free_size m).
Proof.
  intros Hinit m. destruct (reachable_inv _ _ calls Hinit) as [Hinv Htotal].
  fold m in Hinv, Htotal. destruct Hinv as [_ Hch Htot _ _].
  pose proof (chain_positive _ _ Hch) as Hpos.
  assert (free_size m = free_total (memory m)) as Hfs.
  { unfold free_size, occupied_size. fold (occupied_total (memory m)).
    rewrite <- Htot, total_size_split. lia. }
  rewrite Hfs. unfold num_free_blocks, largest_free_block,
    smallest_free_block, get_free_block_info, free_total. simpl.
  rewrite length_fmap.
  assert (Forall (λ y, 0 < y) (size <$> List.filter is_free (memory m)))
    as Hfpos.
  { apply Forall_forall. intros z (b & Hb & _ & <-)%free_sizes_elem.
    rewrite Forall_forall in Hpos. by apply Hpos. }
  destruct (size <$> List.filter is_free (memory m)) as [|x l] eqn:Hfree.
  - apply fmap_nil_inv in Hfree. rewrite Hfree. simpl. by split_and!.
  - assert (length (List.filter is_free (memory m)) ≠ 0%nat) as Hlen.
    { intros Hlen. apply nil_length_inv in Hlen. by rewrite Hlen in Hfree. }
    destruct (list_max_spec x l) as [Hmax Hmaxle].
    destruct (list_min_spec x l) as [Hmin Hminle].
    rewrite Forall_forall in Hfpos, Hmaxle, Hminle.
    pose proof (Hfpos _ Hmax). pose proof (Hfpos _ Hmin).
    pose proof (Hminle _ Hmax).
    pose proof (elem_le_sum _ _ Hfpos Hmax) as Hsum.
    split_and!; try (split; intros; [done|lia]); intros _; split_and!; auto.
Qed.

Lemma free_block_info_reachable_witness :
  let m := run [Allocate 1 200 "first_fit"; Allocate 2 100 "best_fit";
                Deallocate 1]
               (Manager 500 [Block 0 500 free None] None) in
  (num_free_blocks m = 0%nat ↔ largest_free_block m = 0)
  ∧ (num_free_blocks m = 0%nat ↔ smallest_free_block m = 0)
  ∧ (num_free_blocks m = 0%nat ↔ free_size m = 0)
  ∧ (num_free_blocks m ≠ 0%nat →
     0 < smallest_free_block m
     ∧ smallest_free_block m ≤ largest_free_block m
     ∧ largest_free_block m ≤ free_size m).
Proof.
  apply (free_block_info_reachable 500
           (Manager 500 [Block 0 500 free None] None)).
  reflexivity.
Defined.

(** X3. In every state reached from a constructed manager, the number of
    Free blocks that [get_free_block_info] reports is at most the number
    of Occupied blocks plus one, since no two Free blocks are neighbours;
    so a list of [n] Occupied blocks has at most [2 n + 1] blocks. *)
Theorem free_blocks_bounded_by_occupied total self calls :
  __init__ total = Some self →
  let m := run calls self in
  (num_free_blocks m ≤ occupied_count (memory m) + 1)%nat
  ∧ (length (memory m) ≤ 2 * occupied_count (memory m) + 1)%nat.
Proof.
  intros Hinit m. destruct (reachable_inv _ _ calls Hinit) as [Hinv _].
  fold m in Hinv. destruct Hinv as [_ _ _ Hco _].
  pose proof (no_adjacent_free_count _ Hco) as Hcount.
  assert (num_free_blocks m = free_count (memory m)) as ->.
  { unfold num_free_blocks, get_free_block_info, free_count. simpl.
    by rewrite length_fmap. }
  rewrite (length_occupied_free (memory m)).
  assert (match memory m with
          | b :: _ => if is_free b then 1 else 0
          | [] => 0
          end ≤ 1)%nat by (destruct (memory m) as [|b ?]; [|destruct (is_free b)]; lia).
  lia.
Qed.

Lemma free_blocks_bounded_by_occupied_witness :
  let m := run [Allocate 1 200 "first_fit"; Allocate 2 100 "best_fit";
                Deallocate 1]
               (Manager 500 [Block 0 500 free None] None) in
  (num_free_blocks m ≤ occupied_count (memory m) + 1)%nat
  ∧ (length (memory m) ≤ 2 * occupied_count (memory m) + 1)%nat.
Proof.
  apply (free_blocks_bounded_by_occupied 500
           (Manager 500 [Block 0 500 free None] None)).
  reflexivity.
Defined.

(** X4. In every state reached from a constructed manager,
    [get_memory_utilization] reports an [occupied_size] between 0 and
    [total_memory_size]; its [free_size], computed as the difference, is
    the sum of the sizes of the Free blocks, and lies between
    [num_free_blocks] times the smallest and [num_free_blocks] times the
    largest Free block. *)
Theorem utilization_reachable total self calls :
  __init__ total = Some self →
  let m := run calls self in
  0 ≤ occupied_size m ≤ total
  ∧ free_size m = free_total (memory m)
  ∧ 0 ≤ free_size m ≤ total
  ∧ Z.of_nat (num_free_blocks m) * smallest_free_block m ≤ free_size m
  ∧ free_size m ≤ Z.of_nat (num_free_blocks m) * largest_free_block m.
Proof.
  intros Hinit m. destruct (reachable_inv _ _ calls Hinit) as [Hinv Htotal].
  fold m in Hinv, Htotal. destruct Hinv as [_ Hch Htot _ _].
  pose proof (chain_positive _ _ Hch) as Hpos.
  pose proof (occupied_total_nonneg _ Hpos) as Hocc.
  pose proof (free_total_nonneg _ Hpos) as Hfree.
  pose proof (total_size_split (memory m)) as Hsplit.
  assert (occupied_size m = occupied_total (memory m)) as Hos by done.
  assert (free_size m = free_total (memory m)) as Hfs
    by (unfold free_size; lia).
  split_and!; try lia.
  - rewrite Hfs. unfold num_free_blocks, smallest_free_block,
      get_free_block_info, free_total. simpl.
    destruct (size <$> List.filter is_free (memory m)) as [|x l];
      [simpl; lia|].
    destruct (list_min_spec x l) as [_ Hmin].
    apply (sum_bounds (x :: l) (list_min x l) (list_max x l)).
    destruct (list_max_spec x l) as [_ Hmax].
    rewrite Forall_forall in Hmin, Hmax. apply Forall_forall. auto.
  - rewrite Hfs. unfold num_free_blocks, largest_free_block,
      get_free_block_info, free_total. simpl.
    destruct (size <$> List.filter is_free (memory m)) as [|x l];
      [simpl; lia|].
    destruct (list_min_spec x l) as [_ Hmin].
    apply (sum_bounds (x :: l) (list_min x l) (list_max x l)).
    destruct (list_max_spec x l) as [_ Hmax].
    rewrite Forall_forall in Hmin, Hmax. apply Forall_forall. auto.
Qed.

Lemma utilization_reachable_witness :
  let m := run [Allocate 1 200 "first_fit"; Allocate 2 100 "best_fit";
                Deallocate 1]
               (Manager 500 [Block 0 500 free None] None) in
  0 ≤ occupied_size m ≤ 500
  ∧ free_size m = free_total (memory m)
  ∧ 0 ≤ free_size m ≤ 500
  ∧ Z.of_nat (num_free_blocks m) * smallest_free_block m ≤ free_size m
  ∧ free_size m ≤ Z.of_nat (num_free_blocks m) * largest_free_block m.
Proof.
  apply (utilization_reachable 500 (Manager 500 [Block 0 500 free None] None)).
  reflexivity.
Defined.

Lemma allocate_memory_occupied_size
    process_id size_required strategy self A self' :
  allocate_memory process_id size_required strategy self = (Some A, self') →
  occupied_size self' = occupied_size self + size_required
  ∧ total_memory_size self' = total_memory_size self.
Proof.
  intros (l1 & b & l2 & Hmem & [Hfree _]%candidate_true & _ & _ & Hcase)
    %allocate_memory_Some.
  unfold occupied_size. fold (occupied_total (memory self')).
  fold (occupied_total (memory self)). rewrite Hmem.
  destruct Hcase as [[Hsize ->]|[_ ->]]; simpl;
    rewrite !occupied_total_app, !occupied_total_cons;
    unfold is_occupied; simpl; rewrite Hfree; simpl; split; lia.
Qed.

(** Where the invariant holds, [occupied_size] is between 0 and
    [total_memory_size], so that [get_memory_utilization] returns. *)
Lemma inv_occupied_size_bounds m :
  inv m → 0 ≤ occupied_size m ≤ total_memory_size m.
Proof.
  intros [_ Hch Htot _ _]. pose proof (chain_positive _ _ Hch) as Hpos.
  pose proof (occupied_total_nonneg _ Hpos).
  pose proof (free_total_nonneg _ Hpos).
  pose proof (total_size_split (memory m)).
  unfold occupied_size. fold (occupied_total (memory m)). lia.
Qed.

(** X5. In every state reached from a constructed manager, a successful
    [allocate_memory] raises the [occupied_size] of
    [get_memory_utilization] by exactly [size_required] and lowers its
    [free_size] by the same amount; before and after the call
    [occupied_size] is between 0 and [total_memory_size]. *)
Theorem allocate_memory_utilization
    total self calls process_id size_required strategy A m' :
  __init__ total = Some self →
  allocate_memory process_id size_required strategy (run calls self)
  = (Some A, m') →
  occupied_size m' = occupied_size (run calls self) + size_required
  ∧ free_size m' = free_size (run calls self) - size_required
  ∧ 0 ≤ occupied_size (run calls self) ≤ total
  ∧ 0 ≤ occupied_size m' ≤ total.
Proof.
  intros Hinit Halloc.
  destruct (reachable_inv _ _ calls Hinit) as [Hinv Htotal].
  pose proof (allocate_memory_inv process_id size_required strategy _ Hinv)
    as Hinv'.
  rewrite Halloc in Hinv'. simpl in Hinv'.
  destruct (allocate_memory_occupied_size _ _ _ _ _ _ Halloc) as [Hocc Htot].
  pose proof (inv_occupied_size_bounds _ Hinv).
  pose proof (inv_occupied_size_bounds _ Hinv').
  unfold free_size. rewrite Htot. split_and!; lia.
Qed.

Lemma allocate_memory_utilization_witness :
  let m := run [Allocate 1 200 "first_fit"]
               (Manager 1000 [Block 0 1000 free None] None) in
  let m' := Manager 1000 [Block 0 200 occupied (Some 1);
                          Block 200 100 occupied (Some 2);
                          Block 300 700 free None] None in
  occupied_size m' = occupied_size m + 100
  ∧ free_size m' = free_size m - 100
  ∧ 0 ≤ occupied_size m ≤ 1000
  ∧ 0 ≤ occupied_size m' ≤ 1000.
Proof.
  apply (allocate_memory_utilization 1000
           (Manager 1000 [Block 0 1000 free None] None)
           [Allocate 1 200 "first_fit"] 2 100 "best_fit" 200);
    reflexivity.
Defined.

Lemma coalesce_scan_occupied_total l :
  occupied_total (coalesce_scan l) = occupied_total l.
Proof.
  apply (coalesce_scan_ind (λ l r, occupied_total r = occupied_total l));
    auto.
  - intros b m _ IH. by rewrite !occupied_total_cons, IH.
  - intros b b' m _ _ IH. by rewrite !occupied_total_cons, IH.
  - intros b b' m Hb Hb' ->. rewrite !occupied_total_cons.
    unfold is_occupied, is_free in *. simpl. by rewrite Hb, Hb'.
Qed.

Lemma sort_insert_occupied_total x r :
  occupied_total (sort_insert x r) = occupied_total (x :: r).
Proof.
  induction r as [|y r IHr]; [done|].
  change (sort_insert x (y :: r))
    with (if start x <=? start y then x :: y :: r else y :: sort_insert x r).
  destruct (start x <=? start y); [done|].
  rewrite (occupied_total_cons y), IHr, !occupied_total_cons. lia.
Qed.

Lemma sort_by_start_occupied_total l :
  occupied_total (sort_by_start l) = occupied_total l.
Proof.
  induction l as [|x l IH]; [done|].
  change (sort_by_start (x :: l)) with (sort_insert x (sort_by_start l)).
  by rewrite sort_insert_occupied_total, !occupied_total_cons, IH.
Qed.

Lemma deallocate_memory_first_block process_id self self' :
  deallocate_memory process_id self = (true, self') →
  ∃ i b,
    memory self !! i = Some b
    ∧ is_occupied b = true ∧ pid b = Some process_id
    ∧ (∀ j x, memory self !! j = Some x → is_occupied x = true →
              pid x = Some process_id → (i ≤ j)%nat)
    ∧ occupied_size self' = occupied_size self - size b
    ∧ total_memory_size self' = total_memory_size self.
Proof.
  intros (l1 & b & l2 & Hmem & Hb & Hl1 & ->)%deallocate_memory_true.
  pose proof Hb as [Hocc Hpid]%owned_by_true.
  exists (length l1), b. rewrite Hmem. split_and!; auto.
  - by rewrite list_lookup_middle.
  - intros j x Hj Hx Hpx.
    destruct (Nat.le_gt_cases (length l1) j) as [|Hlt]; [done|].
    rewrite lookup_app_l in Hj by done.
    rewrite Forall_lookup in Hl1. specialize (Hl1 _ _ Hj).
    assert (owned_by process_id x = true) by by apply owned_by_true.
    congruence.
  - unfold occupied_size. simpl.
    fold (occupied_total (sort_by_start (coalesce_scan
            (l1 ++ Block (start b) (size b) free None :: l2)))).
    fold (occupied_total (memory self)).
    rewrite sort_by_start_occupied_total, coalesce_scan_occupied_total, Hmem.
    rewrite !occupied_total_app, !occupied_total_cons, Hocc. simpl. lia.
Qed.

(** X6. In every state reached from a constructed manager, a successful
    [deallocate_memory] lowers the [occupied_size] of
    [get_memory_utilization] by the size of the first Occupied block of
    the owner, and raises [free_size] by the same amount; coalescing
    changes neither, and before and after the call [occupied_size] is
    between 0 and [total_memory_size]. *)
Theorem deallocate_memory_utilization total self calls process_id m' :
  __init__ total = Some self →
  deallocate_memory process_id (run calls self) = (true, m') →
  ∃ i b,
    memory (run calls self) !! i = Some b
    ∧ is_occupied b = true ∧ pid b = Some process_id
    ∧ (∀ j x, memory (run calls self) !! j = Some x →
              is_occupied x = true → pid x = Some process_id → (i ≤ j)%nat)
    ∧ occupied_size m' = occupied_size (run calls self) - size b
    ∧ free_size m' = free_size (run calls self) + size b
    ∧ 0 ≤ occupied_size (run calls self) ≤ total
    ∧ 0 ≤ occupied_size m' ≤ total.
Proof.
  intros Hinit Hde.
  destruct (reachable_inv _ _ calls Hinit) as [Hinv Htotal].
  pose proof (deallocate_memory_inv process_id _ Hinv) as Hinv'.
  rewrite Hde in Hinv'. simpl in Hinv'.
  destruct (deallocate_memory_first_block _ _ _ Hde)
    as (i & b & Hi & Hocc & Hpid & Hfirst & Hsize & Htot).
  pose proof (inv_occupied_size_bounds _ Hinv).
  pose proof (inv_occupied_size_bounds _ Hinv').
  exists i, b. unfold free_size. rewrite Htot. split_and!; auto; lia.
Qed.

Lemma deallocate_memory_utilization_witness :
  let m := run [Allocate 1 200 "first_fit"; Allocate 2 100 "best_fit"]
               (Manager 1000 [Block 0 1000 free None] None) in
  let m' := Manager 1000 [Block 0 200 free None;
                          Block 200 100 occupied (Some 2);
                          Block 300 700 free None] None in
  ∃ i b,
    memory m !! i = Some b
    ∧ is_occupied b = true ∧ pid b = Some 1
    ∧ (∀ j x, memory m !! j = Some x →
              is_occupied x = true → pid x = Some 1 → (i ≤ j)%nat)
    ∧ occupied_size m' = occupied_size m - size b
    ∧ free_size m' = free_size m + size b
    ∧ 0 ≤ occupied_size m ≤ 1000
    ∧ 0 ≤ occupied_size m' ≤ 1000.
Proof.
  apply (deallocate_memory_utilization 1000
           (Manager 1000 [Block 0 1000 free None] None)
           [Allocate 1 200 "first_fit"; Allocate 2 100 "best_fit"] 1);
    reflexivity.
Defined.

(** ** Where blocks lie *)

Lemma chain_total_nonneg a l : chain a l → 0 ≤ total_size l.
Proof.
  revert a. induction l as [|x l IH]; intros a; [done|].
  intros (_ & Hpos & Hl). simpl. specialize (IH _ Hl). lia.
Qed.

Lemma chain_elem a l x :
  chain a l → x ∈ l → a ≤ start x ∧ start x + size x ≤ a + total_size l.
Proof.
  revert a. induction l as [|y l IH]; intros a Hch Hx;
    [by apply elem_of_nil in Hx|].
  destruct Hch as (Hst & Hpos & Hl). simpl.
  pose proof (chain_total_nonneg _ _ Hl).
  apply elem_of_cons in Hx as [->|Hx]; [lia|].
  destruct (IH _ Hl Hx). lia.
Qed.

(** X7. In every state reached from a constructed manager, the region
    [A, A + size_required) that a successful [allocate_memory] hands out
    lies within [0, total_memory_size), inside one block that was Free,
    and overlaps no block that was Occupied before the call. *)
Theorem allocated_region_disjoint
    total self calls process_id size_required strategy A m' :
  __init__ total = Some self →
  allocate_memory process_id size_required strategy (run calls self)
  = (Some A, m') →
  0 ≤ A ∧ 0 < size_required ∧ A + size_required ≤ total
  ∧ (∃ b, b ∈ memory (run calls self) ∧ is_free b = true
          ∧ start b = A ∧ A + size_required ≤ start b + size b)
  ∧ ∀ x, x ∈ memory (run calls self) → is_occupied x = true →
         start x + size x ≤ A ∨ A + size_required ≤ start x.
Proof.
  intros Hinit Halloc.
  destruct (reachable_inv _ _ calls Hinit) as [[_ Hch Htot _ _] Htotal].
  apply allocate_memory_Some in Halloc
    as (l1 & b & l2 & Hmem & [Hfree Hfit]%candidate_true & Hpos & -> & _).
  rewrite Hmem in *. rewrite total_size_app in Htot. simpl in Htot.
  apply chain_app in Hch as [Hch1 (Hst & Hsz & Hch2)].
  pose proof (chain_total_nonneg _ _ Hch1).
  pose proof (chain_total_nonneg _ _ Hch2).
  split_and!; try lia.
  - exists b. rewrite elem_of_app, elem_of_cons. split_and!; auto. lia.
  - intros x Hx Hocc. rewrite elem_of_app, elem_of_cons in Hx.
    destruct Hx as [Hx|[->|Hx]].
    + destruct (chain_elem _ _ _ Hch1 Hx). left. lia.
    + unfold is_occupied in Hocc. by rewrite Hfree in Hocc.
    + destruct (chain_elem _ _ _ Hch2 Hx). right. lia.
Qed.

Lemma allocated_region_disjoint_witness :
  let m := run [Allocate 1 200 "first_fit"]
               (Manager 500 [Block 0 500 free None] None) in
  0 ≤ 200 ∧ 0 < 100 ∧ 200 + 100 ≤ 500
  ∧ (∃ b, b ∈ memory m ∧ is_free b = true
          ∧ start b = 200 ∧ 200 + 100 ≤ start b + size b)
  ∧ ∀ x, x ∈ memory m → is_occupied x = true →
         start x + size x ≤ 200 ∨ 200 + 100 ≤ start x.
Proof.
  apply (allocated_region_disjoint 500
           (Manager 500 [Block 0 500 free None] None)
           [Allocate 1 200 "first_fit"] 2 100 "best_fit" 200
           (Manager 500 [Block 0 200 occupied (Some 1);
                         Block 200 100 occupied (Some 2);
                         Block 300 200 free None] None));
    reflexivity.
Defined.

Lemma coalesce_scan_occupied_elem x l :
  is_free x = false → x ∈ coalesce_scan l ↔ x ∈ l.
Proof.
  intros Hx.
  apply (coalesce_scan_ind (λ l r, x ∈ r ↔ x ∈ l)); auto.
  - intros b m _ IH. by rewrite !elem_of_cons, IH.
  - intros b b' m _ _ IH. by rewrite !elem_of_cons, IH.
  - intros b b' m Hb Hb' ->. rewrite !elem_of_cons.
    assert (x ≠ absorb b b') by (intros ->; unfold is_free in *; simpl in *;
                                  congruence).
    assert (x ≠ b) by congruence. assert (x ≠ b') by congruence. tauto.
Qed.

Lemma sort_insert_elem x b l : x ∈ sort_insert b l ↔ x = b ∨ x ∈ l.
Proof.
  induction l as [|y l IH]; simpl; [by rewrite elem_of_cons|].
  destruct (start b <=? start y); rewrite !elem_of_cons; [done|].
  rewrite IH. tauto.
Qed.

Lemma sort_by_start_elem x l : x ∈ sort_by_start l ↔ x ∈ l.
Proof.
  induction l as [|y l IH]; [done|]. simpl.
  by rewrite sort_insert_elem, elem_of_cons, IH.
Qed.

Lemma is_occupied_not_free x : is_occupied x = true ↔ is_free x = false.
Proof. unfold is_occupied. by destruct (is_free x). Qed.

(** The Occupied blocks after a successful allocation are those before
    it and the new one. *)
Lemma allocate_memory_occupied_elem
    process_id size_required strategy self A self' x :
  allocate_memory process_id size_required strategy self = (Some A, self') →
  is_occupied x = true →
  x ∈ memory self' ↔
  x ∈ memory self ∨ x = Block A size_required occupied (Some process_id).
Proof.
  intros (l1 & b & l2 & Hmem & [Hb _]%candidate_true & _ & -> & Hcase)
    %allocate_memory_Some Hx%is_occupied_not_free.
  rewrite Hmem. assert (x ≠ b) by congruence.
  destruct Hcase as [[Hsize ->]|[_ ->]]; simpl;
    rewrite !elem_of_app, !elem_of_cons.
  - rewrite Hsize. tauto.
  - assert (x ≠ Block (start b + size_required) (size b - size_required)
                  free None) by (intros ->; done).
    tauto.
Qed.

(** The Occupied blocks after a successful deallocation are those before
    it without the one that was freed. *)
Lemma deallocate_memory_occupied_elem process_id self self' x :
  deallocate_memory process_id self = (true, self') →
  is_occupied x = true →
  (x ∈ memory self' → x ∈ memory self)
  ∧ (x ∈ memory self → pid x ≠ Some process_id → x ∈ memory self').
Proof.
  intros (l1 & b & l2 & Hmem & [_ Hb]%owned_by_true & _ & ->)
    %deallocate_memory_true Hx%is_occupied_not_free.
  simpl. rewrite sort_by_start_elem, coalesce_scan_occupied_elem by done.
  rewrite Hmem, !elem_of_app, !elem_of_cons.
  assert (x ≠ Block (start b) (size b) free None) by (intros ->; done).
  split; [tauto|]. intros Hin Hpid. assert (x ≠ b) by congruence. tauto.
Qed.

(** X8. In every state, an Occupied block stays in the list, with the
    same [start], [size] and owner, through every [allocate_memory] and
    through every [deallocate_memory] made for another owner: blocks in
    use are never moved, resized or merged. *)
Theorem occupied_block_stable self c x :
  is_occupied x = true → x ∈ memory self →
  (∀ q, c = Deallocate q → pid x ≠ Some q) →
  x ∈ memory (step self c).
Proof.
  intros Hocc Hx Hother.
  destruct c as [process_id size_required strategy|process_id]; simpl.
  - destruct (allocate_memory process_id size_required strategy self)
      as [[A|] self'] eqn:Halloc; simpl.
    + apply (allocate_memory_occupied_elem _ _ _ _ _ _ _ Halloc Hocc). auto.
    + by apply allocate_memory_None in Halloc as ->.
  - destruct (deallocate_memory process_id self) as [[|] self'] eqn:Hde;
      simpl.
    + apply (deallocate_memory_occupied_elem _ _ _ _ Hde Hocc); auto.
    + by apply deallocate_memory_false in Hde as [-> _].
Qed.

Lemma occupied_block_stable_witness :
  let self := Manager 500 [Block 0 200 occupied (Some 1);
                           Block 200 100 occupied (Some 2);
                           Block 300 200 free None] None in
  Block 200 100 occupied (Some 2) ∈ memory (step self (Deallocate 1)).
Proof.
  apply (occupied_block_stable
           (Manager 500 [Block 0 200 occupied (Some 1);
                         Block 200 100 occupied (Some 2);
                         Block 300 200 free None] None)
           (Deallocate 1) (Block 200 100 occupied (Some 2))).
  - reflexivity.
  - apply list_elem_of_further, list_elem_of_here.
  - intros q [= <-]. discriminate.
Defined.

Lemma run_current_strategy calls self :
  current_strategy (run calls self) = current_strategy self.
Proof.
  revert self. induction calls as [|c calls IH]; intros self; [done|].
  change (run (c :: calls) self) with (run calls (step self c)).
  rewrite IH. destruct c as [process_id size_required strategy|process_id];
    simpl.
  - destruct (allocate_memory process_id size_required strategy self)
      as [[A|] self'] eqn:Halloc; simpl.
    + by apply allocate_memory_Some in Halloc
        as (? & ? & ? & _ & _ & _ & _ & [[_ ->]|[_ ->]]).
    + by apply allocate_memory_None in Halloc as ->.
  - destruct (deallocate_memory process_id self) as [[|] self'] eqn:Hde;
      simpl.
    + by apply deallocate_memory_true in Hde as (? & ? & ? & _ & _ & _ & ->).
    + by apply deallocate_memory_false in Hde as [-> _].
Qed.

(** X9. When no block is Occupied in a state reached from a constructed
    manager, the block list is again the single Free block over the whole
    memory and the manager is exactly as constructed: freeing everything
    always coalesces completely. *)
Theorem all_free_is_initial total self calls :
  __init__ total = Some self →
  Forall (λ b, is_free b = true) (memory (run calls self)) →
  memory (run calls self) = [Block 0 total free None]
  ∧ run calls self = self.
Proof.
  intros Hinit Hall.
  destruct (reachable_inv _ _ calls Hinit) as [[Hne Hch Htot Hco Hun] Htotal].
  assert (memory (run calls self) = [Block 0 total free None]) as Hmem.
  { destruct (memory (run calls self)) as [|b [|b' l]]; [done| |].
    - destruct Hch as (Hst & _ & _). simpl in Htot.
      inversion_clear Hall as [|?? Hfree _].
      inversion_clear Hun as [|?? Hb _]. specialize (Hb Hfree).
      destruct b as [a s [] p]; [|done]. simpl in *. f_equal.
      subst. f_equal; lia.
    - inversion_clear Hall as [|?? Hfree Hall'].
      inversion_clear Hall' as [|?? Hfree' _].
      unfold no_adjacent_free in Hco. simpl in Hco.
      by rewrite Hfree, Hfree' in Hco. }
  split; [done|].
  pose proof (run_current_strategy calls self) as Hcs.
  assert (self = Manager total [Block 0 total free None] None) as Hself.
  { revert Hinit. unfold __init__. destruct (total <=? 0); [done|].
    by intros [= <-]. }
  destruct (run calls self) as [t m s]. simpl in *. subst t m s.
  rewrite Hself. simpl. f_equal. unfold total_size. simpl. lia.
Qed.

Lemma all_free_is_initial_witness :
  let self := Manager 500 [Block 0 500 free None] None in
  let calls := [Allocate 1 200 "first_fit"; Allocate 2 100 "best_fit";
                Deallocate 1; Deallocate 2] in
  memory (run calls self) = [Block 0 500 free None] ∧ run calls self = self.
Proof.
  apply (all_free_is_initial 500 (Manager 500 [Block 0 500 free None] None)).
  - reflexivity.
  - repeat constructor.
Defined.

(** ** The two strategies compared *)

(** X10. In every state, when some Free block has exactly the requested
    positive size, [allocate_memory] with [best_fit] succeeds without
    splitting: the number of blocks is unchanged, the number of Free blocks
    goes down by one, and the block handed out has exactly
    [size_required]. *)
Theorem best_fit_takes_exact_fit process_id size_required self :
  0 < size_required →
  (∃ b, b ∈ memory self ∧ is_free b = true ∧ size b = size_required) →
  ∃ A self',
    allocate_memory process_id size_required "best_fit" self
    = (Some A, self')
    ∧ length (memory self') = length (memory self)
    ∧ Block A size_required occupied (Some process_id) ∈ memory self'
    ∧ S (num_free_blocks self') = num_free_blocks self.
Proof.
  intros Hpos (x & Hx & Hfx & Hsx).
  destruct (allocate_memory_succeeds process_id size_required "best_fit" self)
    as [A HA]; [done|auto|exists x; split_and!; auto; lia|].
  destruct (allocate_memory process_id size_required "best_fit" self)
    as [A' self'] eqn:Halloc. simpl in HA. subst A'.
  exists A, self'. split; [done|].
  destruct (allocate_memory_selects _ _ "best_fit" _find_block_best_fit
              _ _ _ eq_refl Halloc) as (i & b & Hfind & Hi & -> & Hi').
  pose proof Hfind as (_ & [Hfb Hfit]%candidate_true & Hmin)
    %find_block_best_fit_Some.
  apply list_elem_of_lookup in Hx as [j Hj].
  destruct (Hmin j x Hj) as [Hle _]; [apply candidate_true; split; [done|lia]|].
  assert (size b = size_required) as Hexact by lia.
  revert Halloc. unfold allocate_memory.
  destruct (Z.leb_spec size_required 0); [lia|]. simpl.
  rewrite Hfind, (proj2 (Z.eqb_eq _ _) Hexact). intros [= <-].
  pose proof (lookup_lt_Some _ _ _ Hi) as Hlt. simpl.
  split_and!.
  - by rewrite length_insert.
  - rewrite <- Hexact at 1. eapply list_elem_of_lookup_2.
    by apply list_lookup_insert_eq.
  - unfold num_free_blocks, get_free_block_info. simpl.
    rewrite !length_fmap.
    destruct (lookup_split _ _ _ Hi) as [Hmem _].
    rewrite insert_take_drop by done. rewrite Hmem at 3.
    rewrite !List.filter_app. simpl. rewrite Hfb. simpl.
    rewrite !length_app. simpl. lia.
Qed.

Lemma best_fit_takes_exact_fit_witness :
  let self := Manager 170 [Block 0 50 free None;
                           Block 50 10 occupied (Some 1);
                           Block 60 20 free None;
                           Block 80 10 occupied (Some 2);
                           Block 90 80 free None] None in
  ∃ A self',
    allocate_memory 3 20 "best_fit" self = (Some A, self')
    ∧ length (memory self') = length (memory self)
    ∧ Block A 20 occupied (Some 3) ∈ memory self'
    ∧ S (num_free_blocks self') = num_free_blocks self.
Proof.
  apply (best_fit_takes_exact_fit 3 20); [lia|].
  exists (Block 60 20 free None). split; [|split; reflexivity].
  do 2 apply list_elem_of_further. apply list_elem_of_here.
Defined.

(** X11. On the same state and request, when [allocate_memory] succeeds
    with [first_fit] and with [best_fit], the block taken by [best_fit] is
    no larger than the one taken by [first_fit], and in a list ordered by
    [start] the address returned by [first_fit] is no higher than the one
    returned by [best_fit]. *)
Theorem first_fit_lowest_best_fit_tightest
    process_id size_required self A1 m1 A2 m2 :
  allocate_memory process_id size_required "first_fit" self = (Some A1, m1) →
  allocate_memory process_id size_required "best_fit" self = (Some A2, m2) →
  ∃ b1 b2,
    b1 ∈ memory self ∧ b2 ∈ memory self
    ∧ is_free b1 = true ∧ is_free b2 = true
    ∧ start b1 = A1 ∧ start b2 = A2
    ∧ size_required ≤ size b2 ≤ size b1
    ∧ (sorted_by_start (memory self) = true → A1 ≤ A2).
Proof.
  intros Hff Hbf.
  destruct (allocate_memory_selects _ _ "first_fit" _find_block_first_fit
              _ _ _ eq_refl Hff) as (i1 & b1 & Hfind1 & Hi1 & -> & _).
  destruct (allocate_memory_selects _ _ "best_fit" _find_block_best_fit
              _ _ _ eq_refl Hbf) as (i2 & b2 & Hfind2 & Hi2 & -> & _).
  apply first_fit_scan_Some in Hfind1
    as (l1 & l2 & Hmem & -> & Hc1 & Hl1).
  apply find_block_best_fit_Some in Hfind2 as (_ & Hc2 & Hmin).
  pose proof Hc1 as [Hf1 Hfit1]%candidate_true.
  pose proof Hc2 as [Hf2 Hfit2]%candidate_true.
  destruct (Hmin _ _ Hi1 Hc1) as [Hle _].
  exists b1, b2. split_and!; eauto using list_elem_of_lookup_2; try lia.
  intros Hsorted.
  assert (0 + length l1 ≤ i2)%nat as Hidx.
  { destruct (Nat.le_gt_cases (0 + length l1) i2) as [|Hlt]; [done|].
    rewrite Hmem, lookup_app_l in Hi2 by lia.
    rewrite Forall_lookup in Hl1. specialize (Hl1 _ _ Hi2). congruence. }
  by apply (sorted_by_start_lookup _ _ _ _ _ Hsorted Hidx).
Qed.

Lemma first_fit_lowest_best_fit_tightest_witness :
  let self := Manager 170 [Block 0 50 free None;
                           Block 50 10 occupied (Some 1);
                           Block 60 20 free None;
                           Block 80 10 occupied (Some 2);
                           Block 90 80 free None] None in
  ∃ b1 b2,
    b1 ∈ memory self ∧ b2 ∈ memory self
    ∧ is_free b1 = true ∧ is_free b2 = true
    ∧ start b1 = 0 ∧ start b2 = 60
    ∧ 15 ≤ size b2 ≤ size b1
    ∧ (sorted_by_start (memory self) = true → 0 ≤ 60).
Proof.
  apply (first_fit_lowest_best_fit_tightest 3 15
           (Manager 170 [Block 0 50 free None;
                         Block 50 10 occupied (Some 1);
                         Block 60 20 free None;
                         Block 80 10 occupied (Some 2);
                         Block 90 80 free None] None)
           0 (Manager 170 [Block 0 15 occupied (Some 3);
                           Block 15 35 free None;
                           Block 50 10 occupied (Some 1);
                           Block 60 20 free None;
                           Block 80 10 occupied (Some 2);
                           Block 90 80 free None] None)
           60 (Manager 170 [Block 0 50 free None;
                            Block 50 10 occupied (Some 1);
                            Block 60 15 occupied (Some 3);
                            Block 75 5 free None;
                            Block 80 10 occupied (Some 2);
                            Block 90 80 free None] None));
    reflexivity.
Defined.

(** ** The coalescing pass on any list *)

Lemma sort_insert_sorted x r :
  sorted_by_start r = true → sorted_by_start (sort_insert x r) = true.
Proof.
  unfold sorted_by_start. induction r as [|y r IH]; [done|]. intros Hr.
  change (sort_insert x (y :: r))
    with (if start x <=? start y then x :: y :: r else y :: sort_insert x r).
  destruct (Z.leb_spec (start x) (start y)) as [Hxy|Hxy].
  - change (adjacentb ?p (x :: y :: r)) with (p x y && adjacentb p (y :: r)).
    rewrite Hr, andb_true_r. by apply Z.leb_le.
  - specialize (IH (adjacentb_tail _ _ _ Hr)).
    destruct r as [|z r].
    + simpl. rewrite andb_true_r. apply Z.leb_le. lia.
    + change (sort_insert x (z :: r))
        with (if start x <=? start z then x :: z :: r
              else z :: sort_insert x r) in *.
      simpl in Hr. apply andb_true_iff in Hr as [Hyz Hr].
      destruct (start x <=? start z).
      * change (adjacentb ?p (y :: x :: z :: r))
          with (p y x && adjacentb p (x :: z :: r)).
        rewrite IH, andb_true_r. apply Z.leb_le. lia.
      * change (adjacentb ?p (y :: z :: ?t))
          with (p y z && adjacentb p (z :: t)).
        by rewrite IH, Hyz.
Qed.

Lemma sort_by_start_is_sorted l : sorted_by_start (sort_by_start l) = true.
Proof.
  induction l as [|x l IH]; [done|]. simpl. by apply sort_insert_sorted.
Qed.

Lemma sort_insert_length x r : length (sort_insert x r) = S (length r).
Proof.
  induction r as [|y r IH]; [done|]. simpl.
  destruct (start x <=? start y); simpl; [done|]. by rewrite IH.
Qed.

Lemma sort_by_start_length l : length (sort_by_start l) = length l.
Proof.
  induction l as [|x l IH]; [done|]. simpl.
  by rewrite sort_insert_length, IH.
Qed.

Lemma sort_insert_total_size x r :
  total_size (sort_insert x r) = size x + total_size r.
Proof.
  induction r as [|y r IH]; [done|]. simpl.
  destruct (start x <=? start y); simpl; [done|]. rewrite IH. lia.
Qed.

Lemma sort_by_start_total_size l : total_size (sort_by_start l) = total_size l.
Proof.
  induction l as [|x l IH]; [done|]. simpl.
  by rewrite sort_insert_total_size, IH.
Qed.

Lemma coalesce_scan_length l : (length (coalesce_scan l) ≤ length l)%nat.
Proof.
  apply (coalesce_scan_ind (λ l r, (length r ≤ length l)%nat)); simpl;
    auto with lia.
Qed.

(** X12. On every block list, ordered or not, [_coalesce_free_blocks]
    returns a list ordered by [start] with the same total size, the same
    Occupied blocks and no more blocks than before; and from its second
    application on the pass changes nothing. *)
Theorem coalesce_free_blocks_normalizes self :
  let once := _coalesce_free_blocks self in
  let twice := _coalesce_free_blocks once in
  sorted_by_start (memory once) = true
  ∧ total_size (memory once) = total_size (memory self)
  ∧ (length (memory once) ≤ length (memory self))%nat
  ∧ (∀ x, is_occupied x = true → x ∈ memory once ↔ x ∈ memory self)
  ∧ no_adjacent_free (memory twice) = true
  ∧ _coalesce_free_blocks twice = twice.
Proof.
  intros once twice.
  assert (sorted_by_start (memory once) = true) as Hsorted
    by apply sort_by_start_is_sorted.
  assert (memory twice = coalesce_scan (memory once)) as Htwice
    by by apply coalesce_free_blocks_sorted.
  split_and!; auto.
  - simpl. by rewrite sort_by_start_total_size, coalesce_scan_total_size.
  - simpl. rewrite sort_by_start_length. apply coalesce_scan_length.
  - intros x Hx. simpl. rewrite sort_by_start_elem.
    apply coalesce_scan_occupied_elem. unfold is_occupied in Hx.
    by destruct (is_free x).
  - rewrite Htwice. apply coalesce_scan_coalesced.
  - assert (sorted_by_start (memory twice) = true) as Hsorted2
      by apply sort_by_start_is_sorted.
    unfold _coalesce_free_blocks at 1. unfold set_memory.
    rewrite (sort_by_start_sorted _ (coalesce_scan_sorted _ Hsorted2)).
    rewrite (coalesce_scan_fixed (memory twice))
      by (rewrite Htwice; apply coalesce_scan_coalesced).
    by destruct twice.
Qed.

Lemma coalesce_free_blocks_normalizes_witness :
  let self := Manager 30 [Block 0 10 free None;
                          Block 20 10 occupied (Some 1);
                          Block 10 10 free None] None in
  let once := _coalesce_free_blocks self in
  let twice := _coalesce_free_blocks once in
  sorted_by_start (memory once) = true
  ∧ total_size (memory once) = total_size (memory self)
  ∧ (length (memory once) ≤ length (memory self))%nat
  ∧ (∀ x, is_occupied x = true → x ∈ memory once ↔ x ∈ memory self)
  ∧ no_adjacent_free (memory twice) = true
  ∧ _coalesce_free_blocks twice = twice.
Proof.
  apply (coalesce_free_blocks_normalizes
           (Manager 30 [Block 0 10 free None;
                        Block 20 10 occupied (Some 1);
                        Block 10 10 free None] None)).
Defined.

(** ** The command loop of [run_cli] *)

Lemma owner_count_pos q l :
  owner_count q l ≠ 0%nat ↔ ∃ b, b ∈ l ∧ owned_by q b = true.
Proof.
  rewrite owner_count_zero, Forall_forall. split.
  - intros Hnot.
    destruct (decide (Exists (λ b, owned_by q b = true) l)) as [Hex|Hno].
    + by apply Exists_exists in Hex.
    + destruct Hnot. intros x Hx. destruct (owned_by q x) eqn:Hq; [|done].
      destruct Hno. apply Exists_exists. eauto.
  - intros (b & Hb & Hq) Hall. specialize (Hall _ Hb). congruence.
Qed.

(** Where an owner has at most one block, two blocks of the owner are the
    same block. *)
Lemma owner_count_unique q l x y :
  (owner_count q l ≤ 1)%nat → x ∈ l → y ∈ l →
  owned_by q x = true → owned_by q y = true → x = y.
Proof.
  induction l as [|z l IH]; intros Hle Hx Hy Hqx Hqy;
    [by apply elem_of_nil in Hx|].
  rewrite owner_count_cons in Hle.
  apply elem_of_cons in Hx as [->|Hx]; apply elem_of_cons in Hy as [->|Hy];
    [done| | |].
  - rewrite Hqx in Hle. assert (owner_count q l ≠ 0%nat)
      by (apply owner_count_pos; eauto). lia.
  - rewrite Hqy in Hle. assert (owner_count q l ≠ 0%nat)
      by (apply owner_count_pos; eauto). lia.
  - apply IH; auto. destruct (owned_by q z); lia.
Qed.

Lemma deallocate_memory_owner_count_exact process_id self self' q :
  deallocate_memory process_id self = (true, self') →
  (owner_count q (memory self')
   + (if bool_decide (process_id = q) then 1 else 0))%nat
  = owner_count q (memory self).
Proof.
  intros (l1 & b & l2 & -> & [Hocc Hpid]%owned_by_true & _ & ->)
    %deallocate_memory_true.
  simpl. rewrite sort_by_start_owner_count, coalesce_scan_owner_count.
  rewrite !owner_count_app, !owner_count_cons, (owned_by_free q) by done.
  assert (owned_by q b = bool_decide (process_id = q)) as ->.
  { unfold owned_by, pid_is. rewrite Hocc, Hpid. simpl.
    destruct (Z.eqb_spec process_id q).
    - by rewrite bool_decide_eq_true_2.
    - by rewrite bool_decide_eq_false_2. }
  lia.
Qed.

Lemma deallocate_memory_succeeds process_id self :
  owner_count process_id (memory self) ≠ 0%nat →
  fst (deallocate_memory process_id self) = true.
Proof.
  intros Hcount.
  destruct (deallocate_memory process_id self) as [[|] self'] eqn:Hde;
    [done|].
  apply deallocate_memory_false in Hde as [_ Hall].
  by apply owner_count_zero in Hall.
Qed.

Lemma inv_set_current_strategy m strategy :
  inv m → inv (Main.set_current_strategy m strategy).
Proof. by intros []. Qed.

Lemma owner_count_fresh st q :
  cli_inv st → Main.next_pid st ≤ q →
  owner_count q (memory (Main.manager st)) = 0%nat.
Proof.
  intros Hinv Hq. apply owner_count_zero, Forall_forall. intros x Hx.
  destruct (owned_by q x) eqn:Hqx; [|done].
  apply owned_by_true in Hqx as [Hocc Hpid].
  destruct (cli_issued _ Hinv _ Hx Hocc) as (q' & Hq' & ?).
  rewrite Hpid in Hq'. injection Hq' as <-. lia.
Qed.

Lemma setup_cli_inv total_memory strategy st :
  strategy = "first_fit"%string ∨ strategy = "best_fit"%string →
  Main.setup total_memory strategy = Some st → cli_inv st.
Proof.
  intros Hstrategy. unfold Main.setup.
  destruct (__init__ total_memory) as [m|] eqn:Hinit; [|done].
  intros [= <-]. pose proof (init_inv _ _ Hinit) as Hm.
  assert (memory m = [Block 0 total_memory free None]) as Hmem.
  { revert Hinit. unfold __init__. destruct (total_memory <=? 0); [done|].
    by intros [= <-]. }
  split; simpl; auto using inv_set_current_strategy; try lia.
  - intros q. rewrite Hmem. unfold owner_count. simpl. lia.
  - intros b. rewrite Hmem. intros ->%list_elem_of_singleton. done.
  - intros q. rewrite Hmem, lookup_empty. unfold owner_count. simpl.
    split; [by intros []|done].
  - intros q pr. by rewrite lookup_empty.
Qed.

Lemma allocate_command_inv int arg st :
  cli_inv st → cli_inv (Main.allocate_command int arg st).
Proof.
  intros Hinv. unfold Main.allocate_command.
  destruct (int arg) as [size_required|]; [|done]. simpl.
  assert (owner_count (Main.next_pid st) (memory (Main.manager st)) = 0%nat)
    as Hfresh by (apply owner_count_fresh; [done|lia]).
  pose proof (allocate_memory_inv (Main.next_pid st) size_required
                (Main.current_strategy st) _ (cli_manager _ Hinv)) as Hm'.
  destruct Hinv as [Hm Hs Hmir Hc Hsingle Hissued Htable Hrec].
  destruct (allocate_memory (Main.next_pid st) size_required
              (Main.current_strategy st) (Main.manager st))
    as [[A|] m'] eqn:Halloc; simpl in Hm'.
  - assert (current_strategy m' = current_strategy (Main.manager st))
      as Hcs.
    { by apply allocate_memory_Some in Halloc
        as (? & ? & ? & _ & _ & _ & _ & [[_ ->]|[_ ->]]). }
    split; simpl; auto; try lia.
    + by rewrite Hcs.
    + intros q. rewrite (allocate_memory_owner_count _ _ _ _ _ _ q Halloc).
      case_bool_decide; [subst q; rewrite Hfresh; lia|apply Hsingle].
    + intros b Hb Hocc.
      apply (allocate_memory_occupied_elem _ _ _ _ _ _ _ Halloc Hocc) in Hb
        as [Hb| ->].
      * destruct (Hissued _ Hb Hocc) as (q & ? & ?). exists q. split; [done|lia].
      * exists (Main.next_pid st). simpl. split; [done|lia].
    + intros q. rewrite (allocate_memory_owner_count _ _ _ _ _ _ q Halloc).
      destruct (decide (Main.next_pid st = q)) as [<-|Hne].
      * rewrite lookup_insert_eq, bool_decide_eq_true_2, Hfresh by done.
        split; [done|eauto].
      * rewrite lookup_insert_ne, bool_decide_eq_false_2 by done.
        apply Htable.
    + intros q pr. destruct (decide (Main.next_pid st = q)) as [<-|Hne].
      * rewrite lookup_insert_eq. intros [= <-]. simpl. split; [done|].
        exists A. split; [done|].
        apply (allocate_memory_occupied_elem _ _ _ _ _ _ _ Halloc); auto.
      * rewrite lookup_insert_ne by done. intros Hpr.
        destruct (Hrec _ _ Hpr) as (? & a & ? & Hin). split; [done|].
        exists a. split; [done|].
        apply (allocate_memory_occupied_elem _ _ _ _ _ _ _ Halloc); auto.
  - apply allocate_memory_None in Halloc as ->.
    split; simpl; auto; try lia.
    intros b Hb Hocc. destruct (Hissued _ Hb Hocc) as (q & ? & ?).
    exists q. split; [done|lia].
Qed.

Lemma deallocate_command_inv int arg st :
  cli_inv st → cli_inv (Main.deallocate_command int arg st).
Proof.
  intros Hinv. unfold Main.deallocate_command.
  destruct (int arg) as [pid_to_deallocate|]; [|done].
  destruct (Main.processes st !! pid_to_deallocate) as [pr|] eqn:Hpr; [|done].
  pose proof (deallocate_memory_inv pid_to_deallocate _ (cli_manager _ Hinv))
    as Hm'.
  destruct Hinv as [Hm Hs Hmir Hc Hsingle Hissued Htable Hrec].
  destruct (deallocate_memory pid_to_deallocate (Main.manager st))
    as [[|] m'] eqn:Hde; simpl in Hm';
    [|by apply deallocate_memory_false in Hde as [-> _]].
  assert (current_strategy m' = current_strategy (Main.manager st)) as Hcs
    by (by apply deallocate_memory_true in Hde
          as (? & ? & ? & _ & _ & _ & ->)).
  pose proof (λ q, deallocate_memory_owner_count_exact _ _ _ q Hde) as Hcount.
  split; simpl; auto.
  - by rewrite Hcs.
  - intros q. specialize (Hcount q). specialize (Hsingle q). lia.
  - intros b Hb Hocc.
    apply (deallocate_memory_occupied_elem _ _ _ _ Hde Hocc) in Hb. auto.
  - intros q. specialize (Hcount q).
    destruct (decide (pid_to_deallocate = q)) as [<-|Hne].
    + rewrite lookup_delete_eq. rewrite bool_decide_eq_true_2 in Hcount by done.
      specialize (Hsingle pid_to_deallocate).
      split; [by intros []|lia].
    + rewrite lookup_delete_ne by done.
      rewrite bool_decide_eq_false_2 in Hcount by done.
      rewrite Htable. by replace (owner_count q (memory m'))
        with (owner_count q (memory (Main.manager st))) by lia.
  - intros q pr'. destruct (decide (pid_to_deallocate = q)) as [<-|Hne];
      [by rewrite lookup_delete_eq|].
    rewrite lookup_delete_ne by done. intros Hq.
    destruct (Hrec _ _ Hq) as (? & a & ? & Hin). split; [done|].
    exists a. split; [done|].
    apply (deallocate_memory_occupied_elem _ _ _ _ Hde); [done..|].
    simpl. congruence.
Qed.

Lemma strategy_command_inv lower arg st :
  cli_inv st → cli_inv (Main.strategy_command lower arg st).
Proof.
  intros Hinv. unfold Main.strategy_command.
  destruct (bool_decide (lower arg = "first_fit"%string)
            || bool_decide (lower arg = "best_fit"%string)) eqn:Hvalid;
    [|done].
  apply orb_true_iff in Hvalid
    as [Hvalid%bool_decide_eq_true|Hvalid%bool_decide_eq_true];
    destruct Hinv as [Hm Hs Hmir Hc Hsingle Hissued Htable Hrec];
    split; simpl; auto using inv_set_current_strategy.
Qed.

Lemma command_step_inv int lower parts st :
  cli_inv st → cli_inv (Main.command_step int lower parts st).
Proof.
  intros Hinv. unfold Main.command_step.
  destruct parts as [|command [|arg [|? ?]]]; try done;
    repeat (case_match; try done);
    auto using allocate_command_inv, deallocate_command_inv,
      strategy_command_inv.
Qed.

Lemma command_loop_inv int lower lines st :
  cli_inv st → cli_inv (Main.command_loop int lower lines st).
Proof.
  revert st. induction lines as [|parts lines IH]; intros st Hinv; [done|].
  simpl. destruct parts as [|command args].
  - apply IH. by apply command_step_inv.
  - destruct (String.eqb command "quit"); [done|].
    apply IH. by apply command_step_inv.
Qed.

(** X13. [Process] objects created one after the other get consecutive
    identifiers from the class counter: the [i]-th object created from
    [next_pid] has [pid] [next_pid + i], the requested size and no
    address, the counter ends [length sizes] higher, and no two of the
    objects share a [pid]. *)
Theorem process_pids_consecutive sizes next_pid :
  snd (spawn sizes next_pid) = next_pid + Z.of_nat (length sizes)
  ∧ length (fst (spawn sizes next_pid)) = length sizes
  ∧ (∀ i p, fst (spawn sizes next_pid) !! i = Some p →
            Process.pid p = next_pid + Z.of_nat i
            ∧ sizes !! i = Some (Process.size_required p)
            ∧ Process.allocated_address p = None)
  ∧ NoDup (Process.pid <$> fst (spawn sizes next_pid)).
Proof.
  assert (∀ sizes next_pid,
    snd (spawn sizes next_pid) = next_pid + Z.of_nat (length sizes)
    ∧ length (fst (spawn sizes next_pid)) = length sizes
    ∧ (∀ i p, fst (spawn sizes next_pid) !! i = Some p →
              Process.pid p = next_pid + Z.of_nat i
              ∧ sizes !! i = Some (Process.size_required p)
              ∧ Process.allocated_address p = None)) as Hspec.
  { clear. intros sizes.
    induction sizes as [|size_required sizes IH]; intros next_pid.
    - simpl. split_and!; [lia|done|]. intros i p. by rewrite lookup_nil.
    - simpl. destruct (IH (next_pid + 1)) as (Hlast & Hlen & Hnth).
      destruct (spawn sizes (next_pid + 1)) as [rest last_pid]. simpl in *.
      split_and!; [lia|by rewrite Hlen|].
      intros [|i] p Hp; simpl in Hp.
      + injection Hp as <-. simpl. split_and!; auto. lia.
      + destruct (Hnth _ _ Hp) as (Hpid & ? & ?). split_and!; auto. lia. }
  destruct (Hspec sizes next_pid) as (Hlast & Hlen & Hnth).
  split_and!; auto.
  apply NoDup_alt. intros i j z Hi Hj.
  apply list_lookup_fmap_Some in Hi as (p & -> & Hp).
  apply list_lookup_fmap_Some in Hj as (p' & Heq & Hp').
  destruct (Hnth _ _ Hp) as (Hpid & _). destruct (Hnth _ _ Hp') as (Hpid' & _).
  lia.
Qed.

Section CommandLoop.
Variable int : string → option Z.
Variable lower : string → string.

(** X14. Through the command loop of [run_cli] at most one Occupied block
    carries any owner: every allocation gets the next value of the
    [Process] counter, which no block carries yet, and every owner in the
    list was issued by the counter. *)
Theorem cli_single_ownership total_memory strategy st lines q :
  strategy = "first_fit"%string ∨ strategy = "best_fit"%string →
  Main.setup total_memory strategy = Some st →
  let st' := Main.command_loop int lower lines st in
  (owner_count q (memory (Main.manager st')) ≤ 1)%nat
  ∧ (Main.next_pid st' ≤ q →
     owner_count q (memory (Main.manager st')) = 0%nat)
  ∧ ∀ b, b ∈ memory (Main.manager st') → is_occupied b = true →
         ∃ p, pid b = Some p ∧ 1 ≤ p < Main.next_pid st'.
Proof.
  intros Hstrategy Hsetup st'.
  pose proof (command_loop_inv int lower lines _
                (setup_cli_inv _ _ _ Hstrategy Hsetup)) as Hinv.
  fold st' in Hinv. split_and!.
  - apply (cli_single _ Hinv).
  - by apply owner_count_fresh.
  - apply (cli_issued _ Hinv).
Qed.

(** X15. Through the command loop of [run_cli] the dictionary
    [processes] matches the block list: a [pid] is a key exactly when an
    Occupied block carries it, and the [Process] stored under it has that
    [pid], and its [allocated_address] and [size_required] are the [start]
    and [size] of an Occupied block of that owner. *)
Theorem cli_processes_match_memory total_memory strategy st lines q :
  strategy = "first_fit"%string ∨ strategy = "best_fit"%string →
  Main.setup total_memory strategy = Some st →
  let st' := Main.command_loop int lower lines st in
  (is_Some (Main.processes st' !! q) ↔
     ∃ b, b ∈ memory (Main.manager st') ∧ is_occupied b = true
          ∧ pid b = Some q)
  ∧ ∀ pr, Main.processes st' !! q = Some pr →
          Process.pid pr = q
          ∧ ∃ a, Process.allocated_address pr = Some a
                 ∧ Block a (Process.size_required pr) occupied (Some q)
                   ∈ memory (Main.manager st').
Proof.
  intros Hstrategy Hsetup st'.
  pose proof (command_loop_inv int lower lines _
                (setup_cli_inv _ _ _ Hstrategy Hsetup)) as Hinv.
  fold st' in Hinv. split; [|apply (cli_records _ Hinv)].
  rewrite (cli_table _ Hinv). pose proof (cli_single _ Hinv q) as Hle.
  pose proof (owner_count_pos q (memory (Main.manager st'))) as Hpos.
  split.
  - intros Hone. destruct (proj1 Hpos) as (b & Hb & Hq); [lia|].
    apply owned_by_true in Hq as [? ?]. eauto.
  - intros (b & Hb & Hocc & Hpid).
    assert (owner_count q (memory (Main.manager st')) ≠ 0%nat); [|lia].
    apply Hpos. exists b. split; [done|]. by apply owned_by_true.
Qed.

Lemma deallocate_memory_occupied_total process_id self self' :
  deallocate_memory process_id self = (true, self') →
  ∃ b, b ∈ memory self ∧ owned_by process_id b = true
       ∧ occupied_size self' = occupied_size self - size b.
Proof.
  intros (l1 & b & l2 & Hmem & Hb & _ & ->)%deallocate_memory_true.
  pose proof Hb as [Hocc _]%owned_by_true.
  exists b. rewrite Hmem, elem_of_app, elem_of_cons. split_and!; auto.
  unfold occupied_size. simpl.
  fold (occupied_total (sort_by_start (coalesce_scan
          (l1 ++ Block (start b) (size b) free None :: l2)))).
  fold (occupied_total (memory self)).
  rewrite sort_by_start_occupied_total, coalesce_scan_occupied_total, Hmem.
  rewrite !occupied_total_app, !occupied_total_cons, Hocc. simpl. lia.
Qed.

(** X16. In the command loop of [run_cli], a [deallocate] command for a
    [pid] that is a key of [processes] always succeeds in the manager:
    the key is removed, no block carries the [pid] afterwards, and
    [occupied_size] goes down by the size the process had asked for. *)
Theorem cli_deallocate_succeeds
    total_memory strategy st lines arg pid_to_deallocate pr :
  strategy = "first_fit"%string ∨ strategy = "best_fit"%string →
  Main.setup total_memory strategy = Some st →
  let st' := Main.command_loop int lower lines st in
  int arg = Some pid_to_deallocate →
  Main.processes st' !! pid_to_deallocate = Some pr →
  let st'' := Main.deallocate_command int arg st' in
  fst (deallocate_memory pid_to_deallocate (Main.manager st')) = true
  ∧ Main.processes st'' = delete pid_to_deallocate (Main.processes st')
  ∧ owner_count pid_to_deallocate (memory (Main.manager st'')) = 0%nat
  ∧ occupied_size (Main.manager st'')
    = occupied_size (Main.manager st') - Process.size_required pr.
Proof.
  intros Hstrategy Hsetup st' Hint Hpr st''.
  pose proof (command_loop_inv int lower lines _
                (setup_cli_inv _ _ _ Hstrategy Hsetup)) as Hinv.
  fold st' in Hinv.
  assert (owner_count pid_to_deallocate (memory (Main.manager st')) = 1%nat)
    as Hone by (apply (cli_table _ Hinv); eauto).
  pose proof (deallocate_memory_succeeds pid_to_deallocate (Main.manager st'))
    as Hsucc.
  unfold st'', Main.deallocate_command. rewrite Hint, Hpr.
  destruct (deallocate_memory pid_to_deallocate (Main.manager st'))
    as [success m'] eqn:Hde. simpl in Hsucc. rewrite Hsucc in * by lia.
  simpl. split_and!; auto.
  - pose proof (deallocate_memory_owner_count_exact _ _ _ pid_to_deallocate Hde)
      as Hcount.
    rewrite bool_decide_eq_true_2 in Hcount by done. lia.
  - destruct (deallocate_memory_occupied_total _ _ _ Hde)
      as (b & Hb & Hq & ->).
    destruct (cli_records _ Hinv _ _ Hpr) as (_ & a & _ & Hin).
    assert (b = Block a (Process.size_required pr) occupied
                  (Some pid_to_deallocate)) as ->; [|done].
    apply (owner_count_unique pid_to_deallocate
             (memory (Main.manager st'))); auto; [lia|].
    by rewrite owned_by_new, bool_decide_eq_true_2.
Qed.

(** X17. In the command loop of [run_cli] the strategy is always
    [first_fit] or [best_fit] and the manager's [current_strategy]
    mirrors it, so an allocation made by the loop returns no address only
    when the size is not positive or no Free block is large enough. *)
Theorem cli_strategy_valid total_memory strategy st lines :
  strategy = "first_fit"%string ∨ strategy = "best_fit"%string →
  Main.setup total_memory strategy = Some st →
  let st' := Main.command_loop int lower lines st in
  (Main.current_strategy st' = "first_fit"%string
   ∨ Main.current_strategy st' = "best_fit"%string)
  ∧ current_strategy (Main.manager st') = Some (Main.current_strategy st')
  ∧ ∀ process_id size_required,
      fst (allocate_memory process_id size_required
             (Main.current_strategy st') (Main.manager st')) = None ↔
      size_required ≤ 0
      ∨ ¬ ∃ b, b ∈ memory (Main.manager st') ∧ is_free b = true
               ∧ size_required ≤ size b.
Proof.
  intros Hstrategy Hsetup st'.
  pose proof (command_loop_inv int lower lines _
                (setup_cli_inv _ _ _ Hstrategy Hsetup)) as Hinv.
  fold st' in Hinv. pose proof (cli_strategy _ Hinv) as Hvalid.
  split_and!; [done|apply (cli_mirror _ Hinv)|].
  intros process_id size_required.
  rewrite allocate_memory_fails, no_candidate_iff.
  split; [|tauto]. intros [?|[[? ?]|?]]; auto. destruct Hvalid; congruence.
Qed.
End CommandLoop.

Lemma fits_largest_free_block size_required self :
  0 < size_required →
  (∃ b, b ∈ memory self ∧ is_free b = true ∧ size_required ≤ size b) ↔
  size_required ≤ largest_free_block self.
Proof.
  intros Hpos. unfold largest_free_block, get_free_block_info. simpl.
  pose proof (free_sizes_elem (memory self)) as Helem.
  destruct (size <$> List.filter is_free (memory self)) as [|x l].
  - split; [|lia]. intros (b & Hb & Hfree & _).
    assert (size b ∈ @nil Z) as Hnil by (apply Helem; eauto).
    by apply elem_of_nil in Hnil.
  - destruct (list_max_spec x l) as [Hin Hall]. split.
    + intros (b & Hb & Hfree & Hfit).
      assert (size b ∈ x :: l) as Hsb by (apply Helem; eauto).
      rewrite Forall_forall in Hall. specialize (Hall _ Hsb). lia.
    + intros Hfit. apply Helem in Hin as (b & Hb & Hfree & Hsize).
      exists b. split_and!; auto. lia.
Qed.

(** X18. In the command loop of [run_cli], an [allocate] command with an
    integer argument always uses up one [pid], whether or not memory is
    found.  When the size is positive and at most the largest Free block,
    the new [Process] is stored in [processes] under that [pid] with the
    address of an Occupied block of that size and owner; otherwise the
    manager and [processes] are unchanged. *)
Theorem cli_allocate_outcome int lower
    total_memory strategy st lines arg size_required :
  strategy = "first_fit"%string ∨ strategy = "best_fit"%string →
  Main.setup total_memory strategy = Some st →
  let st' := Main.command_loop int lower lines st in
  int arg = Some size_required →
  let st'' := Main.allocate_command int arg st' in
  Main.next_pid st'' = Main.next_pid st' + 1
  ∧ (0 < size_required ≤ largest_free_block (Main.manager st') →
     ∃ a, Main.processes st''
          = <[Main.next_pid st' :=
                Process.Make (Main.next_pid st') size_required (Some a)]>
              (Main.processes st')
          ∧ Main.processes st' !! Main.next_pid st' = None
          ∧ Block a size_required occupied (Some (Main.next_pid st'))
            ∈ memory (Main.manager st''))
  ∧ (¬ (0 < size_required ≤ largest_free_block (Main.manager st')) →
     Main.manager st'' = Main.manager st'
     ∧ Main.processes st'' = Main.processes st').
Proof.
  intros Hstrategy Hsetup st' Hint st''.
  pose proof (command_loop_inv int lower lines _
                (setup_cli_inv _ _ _ Hstrategy Hsetup)) as Hinv.
  fold st' in Hinv. pose proof (cli_strategy _ Hinv) as Hvalid.
  assert (Main.processes st' !! Main.next_pid st' = None) as Hnew.
  { apply eq_None_not_Some. rewrite (cli_table _ Hinv).
    rewrite (owner_count_fresh _ (Main.next_pid st') Hinv); [done|lia]. }
  unfold st'', Main.allocate_command. rewrite Hint. simpl.
  destruct (allocate_memory (Main.next_pid st') size_required
              (Main.current_strategy st') (Main.manager st'))
    as [[A|] m'] eqn:Halloc; simpl.
  - split_and!; [done| |].
    + intros _. exists A. split_and!; auto.
      apply (allocate_memory_occupied_elem _ _ _ _ _ _ _ Halloc); auto.
    + intros Hno. destruct Hno.
      pose proof Halloc as (_ & _ & _ & _ & _ & Hpos & _)%allocate_memory_Some.
      split; [done|]. apply fits_largest_free_block; [done|].
      apply (allocate_memory_succeeds_iff (Main.next_pid st') _
               (Main.current_strategy st')); [done..|].
      by rewrite Halloc.
  - pose proof Halloc as ->%allocate_memory_None.
    split_and!; [done| |done].
    intros [Hpos Hfit%fits_largest_free_block]; [|done].
    apply (allocate_memory_succeeds (Main.next_pid st') _
             (Main.current_strategy st')) in Hfit as [A HA]; [|done..].
    rewrite Halloc in HA. done.
Qed.

(** ** The extra properties at concrete inputs *)

Lemma process_pids_consecutive_witness :
  snd (spawn [100; 200] 1) = 1 + Z.of_nat (length [100; 200])
  ∧ length (fst (spawn [100; 200] 1)) = length [100; 200]
  ∧ (∀ i p, fst (spawn [100; 200] 1) !! i = Some p →
            Process.pid p = 1 + Z.of_nat i
            ∧ [100; 200] !! i = Some (Process.size_required p)
            ∧ Process.allocated_address p = None)
  ∧ NoDup (Process.pid <$> fst (spawn [100; 200] 1)).
Proof. apply (process_pids_consecutive [100; 200] 1). Defined.

Lemma cli_single_ownership_witness :
  let int := λ s : string,
    if String.eqb s "100" then Some 100
    else if String.eqb s "1" then Some 1 else None in
  let lower := λ s : string, s in
  let st := Main.State (Manager 500 [Block 0 500 free None] (Some "first_fit"%string))
              ∅ "first_fit" 1 in
  let st' := Main.command_loop int lower
               [["allocate"; "100"]; ["strategy"; "best_fit"];
                ["allocate"; "100"]; ["deallocate"; "1"]]%string st in
  (owner_count 2 (memory (Main.manager st')) ≤ 1)%nat
  ∧ (Main.next_pid st' ≤ 2 →
     owner_count 2 (memory (Main.manager st')) = 0%nat)
  ∧ ∀ b, b ∈ memory (Main.manager st') → is_occupied b = true →
         ∃ p, pid b = Some p ∧ 1 ≤ p < Main.next_pid st'.
Proof.
  intros int lower st.
  apply (cli_single_ownership int lower 500 "first_fit" st); [by left|].
  reflexivity.
Defined.

Lemma cli_processes_match_memory_witness :
  let int := λ s : string,
    if String.eqb s "100" then Some 100
    else if String.eqb s "1" then Some 1 else None in
  let lower := λ s : string, s in
  let st := Main.State (Manager 500 [Block 0 500 free None] (Some "first_fit"%string))
              ∅ "first_fit" 1 in
  let st' := Main.command_loop int lower
               [["allocate"; "100"]; ["strategy"; "best_fit"];
                ["allocate"; "100"]; ["deallocate"; "1"]]%string st in
  (is_Some (Main.processes st' !! 2) ↔
     ∃ b, b ∈ memory (Main.manager st') ∧ is_occupied b = true
          ∧ pid b = Some 2)
  ∧ ∀ pr, Main.processes st' !! 2 = Some pr →
          Process.pid pr = 2
          ∧ ∃ a, Process.allocated_address pr = Some a
                 ∧ Block a (Process.size_required pr) occupied (Some 2)
                   ∈ memory (Main.manager st').
Proof.
  intros int lower st.
  apply (cli_processes_match_memory int lower 500 "first_fit" st); [by left|].
  reflexivity.
Defined.

Lemma cli_deallocate_succeeds_witness :
  let int := λ s : string,
    if String.eqb s "100" then Some 100
    else if String.eqb s "1" then Some 1 else None in
  let lower := λ s : string, s in
  let st := Main.State (Manager 500 [Block 0 500 free None] (Some "first_fit"%string))
              ∅ "first_fit" 1 in
  let st' := Main.command_loop int lower [["allocate"; "100"]]%string st in
  let st'' := Main.deallocate_command int "1" st' in
  fst (deallocate_memory 1 (Main.manager st')) = true
  ∧ Main.processes st'' = delete 1 (Main.processes st')
  ∧ owner_count 1 (memory (Main.manager st'')) = 0%nat
  ∧ occupied_size (Main.manager st'')
    = occupied_size (Main.manager st') - 100.
Proof.
  intros int lower st.
  apply (cli_deallocate_succeeds int lower 500 "first_fit" st
           [["allocate"; "100"]]%string "1" 1 (Process.Make 1 100 (Some 0)));
    [by left|reflexivity|reflexivity|].
  vm_compute. reflexivity.
Defined.

Lemma cli_strategy_valid_witness :
  let int := λ s : string,
    if String.eqb s "100" then Some 100
    else if String.eqb s "1" then Some 1 else None in
  let lower := λ s : string, s in
  let st := Main.State (Manager 500 [Block 0 500 free None] (Some "first_fit"%string))
              ∅ "first_fit" 1 in
  let st' := Main.command_loop int lower
               [["allocate"; "100"]; ["strategy"; "best_fit"];
                ["strategy"; "worst_fit"]]%string st in
  (Main.current_strategy st' = "first_fit"%string
   ∨ Main.current_strategy st' = "best_fit"%string)
  ∧ current_strategy (Main.manager st') = Some (Main.current_strategy st')
  ∧ ∀ process_id size_required,
      fst (allocate_memory process_id size_required
             (Main.current_strategy st') (Main.manager st')) = None ↔
      size_required ≤ 0
      ∨ ¬ ∃ b, b ∈ memory (Main.manager st') ∧ is_free b = true
               ∧ size_required ≤ size b.
Proof.
  intros int lower st.
  apply (cli_strategy_valid int lower 500 "first_fit" st); [by left|].
  reflexivity.
Defined.

Lemma cli_allocate_outcome_witness :
  let int := λ s : string,
    if String.eqb s "100" then Some 100
    else if String.eqb s "1" then Some 1 else None in
  let lower := λ s : string, s in
  let st := Main.State (Manager 500 [Block 0 500 free None] (Some "first_fit"%string))
              ∅ "first_fit" 1 in
  let st' := Main.command_loop int lower [["allocate"; "100"]]%string st in
  let st'' := Main.allocate_command int "100" st' in
  Main.next_pid st'' = Main.next_pid st' + 1
  ∧ (0 < 100 ≤ largest_free_block (Main.manager st') →
     ∃ a, Main.processes st''
          = <[Main.next_pid st' :=
                Process.Make (Main.next_pid st') 100 (Some a)]>
              (Main.processes st')
          ∧ Main.processes st' !! Main.next_pid st' = None
          ∧ Block a 100 occupied (Some (Main.next_pid st'))
            ∈ memory (Main.manager st''))
  ∧ (¬ (0 < 100 ≤ largest_free_block (Main.manager st')) →
     Main.manager st'' = Main.manager st'
     ∧ Main.processes st'' = Main.processes st').
Proof.
  intros int lower st.
  apply (cli_allocate_outcome int lower 500 "first_fit" st
           [["allocate"; "100"]]%string "100" 100);
    [by left|reflexivity|reflexivity].
Defined.

(** ** How many blocks coalescing removes *)

Lemma adjacent_free_pairs_cons2 b b' l :
  adjacent_free_pairs (b :: b' :: l)
  = ((if is_free b && is_free b' then 1 else 0)
     + adjacent_free_pairs (b' :: l))%nat.
Proof. done. Qed.

Lemma adjacent_free_pairs_head b b' l :
  is_free b = is_free b' →
  adjacent_free_pairs (b :: l) = adjacent_free_pairs (b' :: l).
Proof. intros Heq. destruct l; [done|]. simpl. by rewrite Heq. Qed.

Lemma adjacent_free_pairs_occupied b l :
  is_free b = false →
  adjacent_free_pairs (b :: l) = adjacent_free_pairs l.
Proof. intros Hb. destruct l; [done|]. simpl. by rewrite Hb. Qed.

Lemma free_count_cons b l :
  free_count (b :: l) = ((if is_free b then 1 else 0) + free_count l)%nat.
Proof. unfold free_count. simpl. by destruct (is_free b). Qed.

Lemma coalesce_scan_counts l :
  (length (coalesce_scan l) + adjacent_free_pairs l = length l
   ∧ free_count (coalesce_scan l) + adjacent_free_pairs l = free_count l)%nat.
Proof.
  apply (coalesce_scan_ind
           (λ l r, (length r + adjacent_free_pairs l = length l
                    ∧ free_count r + adjacent_free_pairs l = free_count l)%nat)).
  - done.
  - intros b m Hb [IH1 IH2]. rewrite adjacent_free_pairs_occupied by done.
    rewrite !free_count_cons, Hb. cbn [length]. lia.
  - intros b Hb. rewrite !free_count_cons. simpl. lia.
  - intros b b' m Hb Hb' [IH1 IH2].
    rewrite adjacent_free_pairs_cons2, Hb', andb_false_r.
    rewrite adjacent_free_pairs_occupied by done.
    rewrite !free_count_cons, Hb, Hb'. cbn [length]. lia.
  - intros b b' m Hb Hb' [IH1 IH2].
    assert (is_free (absorb b b') = true) as Ha
      by (unfold is_free in *; simpl; congruence).
    rewrite (adjacent_free_pairs_head (absorb b b') b') in IH1, IH2
      by congruence.
    rewrite free_count_cons, Ha in IH2. cbn [length] in IH1.
    rewrite adjacent_free_pairs_cons2, Hb, Hb'.
    rewrite !free_count_cons, Hb, Hb'. cbn [length andb]. lia.
Qed.

Lemma sort_insert_free_count x r :
  free_count (sort_insert x r) = free_count (x :: r).
Proof.
  induction r as [|y r IHr]; [done|].
  change (sort_insert x (y :: r))
    with (if start x <=? start y then x :: y :: r else y :: sort_insert x r).
  destruct (start x <=? start y); [done|].
  rewrite (free_count_cons y), IHr, !free_count_cons. lia.
Qed.

Lemma sort_by_start_free_count l :
  free_count (sort_by_start l) = free_count l.
Proof.
  induction l as [|x l IH]; [done|].
  change (sort_by_start (x :: l)) with (sort_insert x (sort_by_start l)).
  by rewrite sort_insert_free_count, !free_count_cons, IH.
Qed.

(** X19. On every block list, [_coalesce_free_blocks] removes exactly one
    block, and one Free block, for every place where a Free block is
    followed by a Free block. *)
Theorem coalesce_free_blocks_counts self :
  (length (memory (_coalesce_free_blocks self))
   + adjacent_free_pairs (memory self) = length (memory self))%nat
  ∧ (num_free_blocks (_coalesce_free_blocks self)
     + adjacent_free_pairs (memory self) = num_free_blocks self)%nat.
Proof.
  destruct (coalesce_scan_counts (memory self)) as [Hlen Hfree].
  split.
  - simpl. by rewrite sort_by_start_length.
  - unfold num_free_blocks, get_free_block_info. simpl. rewrite !length_fmap.
    fold (free_count (sort_by_start (coalesce_scan (memory self)))).
    fold (free_count (memory self)).
    by rewrite sort_by_start_free_count.
Qed.

Lemma adjacent_free_pairs_app_cons l1 x l2 :
  adjacent_free_pairs (l1 ++ x :: l2)
  = (adjacent_free_pairs (l1 ++ [x]) + adjacent_free_pairs (x :: l2))%nat.
Proof.
  induction l1 as [|y l1 IH]; [simpl; lia|].
  destruct l1 as [|z l1].
  - simpl. destruct l2; simpl; lia.
  - change ((y :: z :: l1) ++ x :: l2) with (y :: z :: (l1 ++ x :: l2)).
    change ((y :: z :: l1) ++ [x]) with (y :: z :: (l1 ++ [x])).
    rewrite !adjacent_free_pairs_cons2.
    change (z :: (l1 ++ x :: l2)) with ((z :: l1) ++ x :: l2).
    change (z :: (l1 ++ [x])) with ((z :: l1) ++ [x]).
    rewrite IH. lia.
Qed.

Lemma adjacent_free_pairs_snoc_le l b x :
  (adjacent_free_pairs (l ++ [x]) ≤ adjacent_free_pairs (l ++ [b]) + 1)%nat.
Proof.
  induction l as [|y l IH]; [simpl; lia|].
  destruct l as [|z l].
  - simpl. destruct (is_free y && is_free x), (is_free y && is_free b); lia.
  - change ((y :: z :: l) ++ [x]) with (y :: z :: (l ++ [x])).
    change ((y :: z :: l) ++ [b]) with (y :: z :: (l ++ [b])).
    rewrite !adjacent_free_pairs_cons2.
    change (z :: (l ++ [x])) with ((z :: l) ++ [x]).
    change (z :: (l ++ [b])) with ((z :: l) ++ [b]). lia.
Qed.

Lemma adjacent_free_pairs_cons_le b x l :
  (adjacent_free_pairs (x :: l) ≤ adjacent_free_pairs (b :: l) + 1)%nat.
Proof.
  destruct l as [|y l]; [simpl; lia|]. rewrite !adjacent_free_pairs_cons2.
  destruct (is_free x && is_free y), (is_free b && is_free y); lia.
Qed.

Lemma no_adjacent_free_pairs l :
  no_adjacent_free l = true → adjacent_free_pairs l = 0%nat.
Proof.
  unfold no_adjacent_free. induction l as [|x l IH]; [done|].
  destruct l as [|y l]; [done|].
  change (adjacentb ?p (x :: y :: l)) with (p x y && adjacentb p (y :: l)).
  intros [Hxy%negb_true_iff Hl]%andb_true_iff.
  by rewrite adjacent_free_pairs_cons2, Hxy, (IH Hl).
Qed.

(** X20. In every state reached from a constructed manager, a successful
    [deallocate_memory] removes at most two blocks from the list (the
    freed block merges with at most its two neighbours), and the number of
    Free blocks changes by at most one. *)
Theorem deallocate_memory_merges_neighbours
    total self calls process_id m' :
  __init__ total = Some self →
  deallocate_memory process_id (run calls self) = (true, m') →
  (length (memory m') ≤ length (memory (run calls self)))%nat
  ∧ (length (memory (run calls self)) ≤ length (memory m') + 2)%nat
  ∧ (num_free_blocks m' ≤ num_free_blocks (run calls self) + 1)%nat
  ∧ (num_free_blocks (run calls self) ≤ num_free_blocks m' + 1)%nat.
Proof.
  intros Hinit Hde.
  destruct (reachable_inv _ _ calls Hinit) as [[_ _ _ Hco _] _].
  apply deallocate_memory_true in Hde
    as (l1 & b & l2 & Hmem & [Hocc _]%owned_by_true & _ & ->).
  apply is_occupied_not_free in Hocc.
  set (freed := l1 ++ Block (start b) (size b) free None :: l2).
  destruct (coalesce_scan_counts freed) as [Hlen Hfree].
  assert (adjacent_free_pairs freed ≤ 2)%nat as Hpairs.
  { apply no_adjacent_free_pairs in Hco.
    rewrite Hmem, adjacent_free_pairs_app_cons in Hco.
    unfold freed. rewrite adjacent_free_pairs_app_cons.
    pose proof (adjacent_free_pairs_snoc_le l1 b
                  (Block (start b) (size b) free None)).
    pose proof (adjacent_free_pairs_cons_le b
                  (Block (start b) (size b) free None) l2). lia. }
  assert (length freed = length (memory (run calls self))) as Hsame
    by (unfold freed; rewrite Hmem, !length_app; done).
  assert (free_count freed = S (free_count (memory (run calls self))))
    as Hmore.
  { unfold freed, free_count. rewrite Hmem, !List.filter_app. simpl.
    rewrite Hocc. simpl. rewrite !length_app. simpl. lia. }
  assert (∀ m, num_free_blocks m = free_count (memory m)) as Hnum.
  { intros m. unfold num_free_blocks, get_free_block_info, free_count.
    simpl. by rewrite length_fmap. }
  rewrite !Hnum. simpl. fold freed.
  rewrite sort_by_start_length, sort_by_start_free_count. lia.
Qed.

Lemma deallocate_memory_merges_neighbours_witness :
  let m := run [Allocate 1 200 "first_fit"; Allocate 2 100 "first_fit";
                Allocate 3 50 "first_fit"; Deallocate 1]
               (Manager 500 [Block 0 500 free None] None) in
  let m' := Manager 500 [Block 0 300 free None;
                         Block 300 50 occupied (Some 3);
                         Block 350 150 free None] None in
  (length (memory m') ≤ length (memory m))%nat
  ∧ (length (memory m) ≤ length (memory m') + 2)%nat
  ∧ (num_free_blocks m' ≤ num_free_blocks m + 1)%nat
  ∧ (num_free_blocks m ≤ num_free_blocks m' + 1)%nat.
Proof.
  apply (deallocate_memory_merges_neighbours 500
           (Manager 500 [Block 0 500 free None] None)
           [Allocate 1 200 "first_fit"; Allocate 2 100 "first_fit";
            Allocate 3 50 "first_fit"; Deallocate 1] 2);
    reflexivity.
Defined.
